(** * A libevent TCP echo server (src/main.c): model and verification

    The program is a single C file built on libevent 2.x.  It owns five
    callbacks ([listener_cb], [conn_writecb], [conn_readcb], [conn_eventcb],
    [signal_cb]) and [main]; everything else is the libevent API.  The
    callbacks and [main] are transcribed below statement by statement as
    programs of a small state monad over the process state; the libevent
    primitives they call are modelled separately and marked as such. *)

From Stdlib Require Import ZArith Lia List String Ascii Strings.Byte.
From stdpp Require Import base option list gmap strings pretty.

Local Open Scope Z_scope.

(** ** Constants *)

Module Const.

(** [static const unsigned short PORT = 9995;] (main.c, line 12). *)
Definition PORT : Z := 9995.

(** Values of the libevent 2.x and POSIX header constants the program
    names (event2/event.h, event2/bufferevent.h, event2/listener.h,
    sys/socket.h, signal.h). *)
Definition EV_READ : Z := 0x02.
Definition EV_WRITE : Z := 0x04.

Definition BEV_EVENT_READING : Z := 0x01.
Definition BEV_EVENT_WRITING : Z := 0x02.
Definition BEV_EVENT_EOF : Z := 0x10.
Definition BEV_EVENT_ERROR : Z := 0x20.
Definition BEV_EVENT_TIMEOUT : Z := 0x40.
Definition BEV_EVENT_CONNECTED : Z := 0x80.

Definition BEV_OPT_CLOSE_ON_FREE : Z := Z.shiftl 1 0.

Definition LEV_OPT_CLOSE_ON_FREE : Z := Z.shiftl 1 1.
Definition LEV_OPT_REUSEABLE : Z := Z.shiftl 1 3.

Definition AF_INET : Z := 2.
Definition INADDR_ANY : Z := 0.
Definition SIGINT : Z := 2.

End Const.
Import Const.

(** C truth value of an integer expression used as a condition. *)
Definition c_true (z : Z) : bool := negb (z =? 0).

(** ** Buffers and the transport's move primitive *)

(** An [evbuffer] is a FIFO of bytes: head of the list = next byte out. *)
Definition evbuffer : Type := list byte.

(** [evbuffer_get_length]: a [size_t].  The program never does arithmetic
  on lengths, it only compares them, so [Z] is used without a modulus. *)
Definition evbuffer_get_length (b : evbuffer) : Z := Z.of_nat (length b).

(** The one buffer operation of the transport that the program relies on:
  [evbuffer_remove_buffer src dst datlen] returns the new source, the new
  destination and its [int] result: the number of bytes moved, or a
  negative value when it refuses to move. *)
Class Transport : Type :=
  { evbuffer_remove_buffer : evbuffer → evbuffer → Z → evbuffer * evbuffer * Z }.

(** What the program needs from it: some prefix of [src] of at most
  [datlen] bytes is cut off and appended to [dst], its length is the
  result, and a request for at least one byte on a non-empty source moves
  at least one byte.  Short moves are allowed.  (libevent's function
  refuses to move, with a negative result, only when the source is frozen
  at its front or the destination at its back; the input and output
  buffers of a bufferevent are not, so that case is left out.) *)
Class TransportLaws (T : Transport) : Prop :=
  { remove_buffer_moves :
    ∀ (src dst : evbuffer) (datlen : Z),
      0 ≤ datlen →
      ∃ moved rest : evbuffer,
        src = moved ++ rest
        ∧ evbuffer_remove_buffer src dst datlen
          = (rest, dst ++ moved, Z.of_nat (length moved))
        ∧ Z.of_nat (length moved) ≤ datlen
        ∧ (0 < datlen → src ≠ [] → moved ≠ []) }.

(** Modelled from the spec: the transport API that "moves N bytes from one
  buffer to another" (section 6); libevent itself is not part of the
  repository.  It moves [min datlen (length src)] bytes. *)
Definition move_bytes (src dst : evbuffer) (datlen : Z) : evbuffer * evbuffer * Z :=
  let n := Z.to_nat datlen in
  (drop n src, dst ++ take n src, Z.of_nat (length (take n src))).

#[export] Instance spec_transport : Transport :=
  {| evbuffer_remove_buffer := move_bytes |}.

(** A transport that moves at most one byte per call: it obeys the same
  laws and makes the drain loop run once per byte. *)
Definition move_one_byte (src dst : evbuffer) (datlen : Z) : evbuffer * evbuffer * Z :=
  move_bytes src dst (Z.min 1 datlen).

Definition trickle_transport : Transport :=
  {| evbuffer_remove_buffer := move_one_byte |}.

(** The library function returns an [int], and main.c stores it in a
    [size_t] ([size_t writes = evbuffer_remove_buffer(...)], line 90).  The
    conversion leaves a non-negative [int] as it is and turns a negative
    one into that value plus [2 ^ SIZE_BITS], so that -1 becomes the
    largest [size_t].  [SIZE_BITS] is the width of [size_t], 64 on the
    LP64 platforms; all that is used of it is that [size_t] is wider than
    [int]. *)
Definition SIZE_BITS : Z := 64.

Definition int_to_size_t (z : Z) : Z := if z <? 0 then z + 2 ^ SIZE_BITS else z.

(** ** The drain loop of [conn_readcb] (main.c, lines 88-94)

  [while (1) { size_t inputs = len(in); size_t writes = remove(in, out, inputs);
               if (inputs <= writes) break; }]

  One unit of fuel is one pass.  The third component lists, oldest first,
  the values [inputs] and [writes] took in each pass: a ghost record used
  to count passes and bytes moved. *)
Section Drain.
Context {T : Transport}.

Fixpoint conn_readcb_loop (fuel : nat) (evbuf_in evbuf_out : evbuffer)
    (log : list (Z * Z)) : option (evbuffer * evbuffer * list (Z * Z)) :=
  match fuel with
  | O => None
  | S fuel' =>
      let inputs := evbuffer_get_length evbuf_in in
      match evbuffer_remove_buffer evbuf_in evbuf_out inputs with
      | (evbuf_in', evbuf_out', result) =>
          let writes := int_to_size_t result in
          if inputs <=? writes
          then Some (evbuf_in', evbuf_out', log ++ [(inputs, writes)])
          else conn_readcb_loop fuel' evbuf_in' evbuf_out' (log ++ [(inputs, writes)])
      end
  end.

End Drain.

Definition sumZ (l : list Z) : Z := fold_right Z.add 0 l.

(** ** Process state *)

(** The five callbacks of main.c, as values of the libevent callback types
    at which the program passes them. *)
Inductive bufferevent_data_cb : Type := Conn_readcb | Conn_writecb.
Inductive bufferevent_event_cb : Type := Conn_eventcb.
Inductive evconnlistener_cb : Type := Listener_cb.
Inductive event_callback_fn : Type := Signal_cb.

(** [struct bufferevent], reduced to what the program touches. *)
Record bufferevent : Type := Bufferevent
  { bev_input : evbuffer;
    bev_output : evbuffer;
    bev_options : Z;
    bev_readcb : option bufferevent_data_cb;
    bev_writecb : option bufferevent_data_cb;
    bev_eventcb : option bufferevent_event_cb;
    bev_enabled : Z }.

(** [struct sockaddr_in]; [sin_port] holds the two octets of the field in
    memory order, which is network order whatever the host. *)
Record sockaddr_in : Type := Sockaddr_in
  { sin_family : Z; sin_port : list Z; sin_addr : Z }.

Definition htons (x : Z) : list Z := [(x / 256) mod 256; x mod 256].

Record evconnlistener : Type := Evconnlistener
  { lev_cb : evconnlistener_cb;
    lev_flags : Z;
    lev_backlog : Z;
    lev_addr : sockaddr_in }.

Record event : Type := Event
  { ev_signum : Z; ev_cb : event_callback_fn; ev_added : bool }.

Record timeval : Type := Timeval { tv_sec : Z; tv_usec : Z }.

(** Clock values and deadlines are in microseconds. *)
Definition timeval_usec (tv : timeval) : Z := tv_sec tv * 1000000 + tv_usec tv.

(** The process: its two output streams and its single event base with
    everything registered on it.  A bufferevent is named by the socket it
    wraps; [wire] holds, per socket, the bytes already written to the
    peer; [exit_timers] holds the deadlines of the armed loop-exit timers. *)
Record world : Type := World
  { now : Z;
    base_alive : bool;
    listener : option evconnlistener;
    signal_event : option event;
    conns : gmap Z bufferevent;
    closed_fds : gset Z;
    wire : gmap Z (list byte);
    exit_timers : list Z;
    event_break : bool;
    stdout : list string;
    stderr : list string }.

Definition init_world : world :=
  {| now := 0; base_alive := false; listener := None; signal_event := None;
     conns := ∅; closed_fds := ∅; wire := ∅; exit_timers := [];
     event_break := false; stdout := []; stderr := [] |}.

Definition set_now (v : Z) (w : world) : world :=
  World v (base_alive w) (listener w) (signal_event w) (conns w) (closed_fds w)
        (wire w) (exit_timers w) (event_break w) (stdout w) (stderr w).
Definition set_base_alive (v : bool) (w : world) : world :=
  World (now w) v (listener w) (signal_event w) (conns w) (closed_fds w)
        (wire w) (exit_timers w) (event_break w) (stdout w) (stderr w).
Definition set_listener (v : option evconnlistener) (w : world) : world :=
  World (now w) (base_alive w) v (signal_event w) (conns w) (closed_fds w)
        (wire w) (exit_timers w) (event_break w) (stdout w) (stderr w).
Definition set_signal_event (v : option event) (w : world) : world :=
  World (now w) (base_alive w) (listener w) v (conns w) (closed_fds w)
        (wire w) (exit_timers w) (event_break w) (stdout w) (stderr w).
Definition set_conns (v : gmap Z bufferevent) (w : world) : world :=
  World (now w) (base_alive w) (listener w) (signal_event w) v (closed_fds w)
        (wire w) (exit_timers w) (event_break w) (stdout w) (stderr w).
Definition set_closed_fds (v : gset Z) (w : world) : world :=
  World (now w) (base_alive w) (listener w) (signal_event w) (conns w) v
        (wire w) (exit_timers w) (event_break w) (stdout w) (stderr w).
Definition set_wire (v : gmap Z (list byte)) (w : world) : world :=
  World (now w) (base_alive w) (listener w) (signal_event w) (conns w) (closed_fds w)
        v (exit_timers w) (event_break w) (stdout w) (stderr w).
Definition set_exit_timers (v : list Z) (w : world) : world :=
  World (now w) (base_alive w) (listener w) (signal_event w) (conns w) (closed_fds w)
        (wire w) v (event_break w) (stdout w) (stderr w).
Definition set_event_break (v : bool) (w : world) : world :=
  World (now w) (base_alive w) (listener w) (signal_event w) (conns w) (closed_fds w)
        (wire w) (exit_timers w) v (stdout w) (stderr w).
Definition set_stdout (v : list string) (w : world) : world :=
  World (now w) (base_alive w) (listener w) (signal_event w) (conns w) (closed_fds w)
        (wire w) (exit_timers w) (event_break w) v (stderr w).
Definition set_stderr (v : list string) (w : world) : world :=
  World (now w) (base_alive w) (listener w) (signal_event w) (conns w) (closed_fds w)
        (wire w) (exit_timers w) (event_break w) (stdout w) v.

(** ** The monad of the program

    A computation takes the process state and either returns a value and
    the new state, or returns nothing: the call does not come back (a loop
    that runs out of passes, an event loop with nothing left to wake it),
    or it was handed a bufferevent that is not live. *)
Definition M (A : Type) : Type := world → option (A * world).

#[export] Instance M_ret : MRet M := λ A (a : A) (w : world), Some (a, w).
#[export] Instance M_bind : MBind M :=
  λ A B (k : A → M B) (m : M A) (w : world),
    match m w with
    | Some (a, w') => k a w'
    | None => None
    end.

Definition gets {A : Type} (f : world → A) : M A := λ w, Some (f w, w).
Definition modify (f : world → world) : M unit := λ w, Some (tt, f w).
Definition no_return {A : Type} : M A := λ _, None.
Definition lift_option {A : Type} (o : option A) : M A :=
  λ w, match o with Some a => Some (a, w) | None => None end.
Definition when (b : bool) (m : M unit) : M unit := if b then m else mret tt.

(** State after a computation, when it returns. *)
Definition exec {A : Type} (m : M A) (w : world) : option world := snd <$> m w.

(** ** libevent and libc primitives used by main.c

    libevent is not part of the repository.  Its primitives are modelled
    here from what the specification says of the transport (sections 3, 4
    and 6), with the argument lists of the calls in main.c. *)

(** The newline character, written [\n] in the C string literals. *)
Definition nl : string := String "010"%char EmptyString.

(** [printf] and [fprintf(stderr, ...)]: one list element per call. *)
Definition printf (s : string) : M unit :=
  modify (λ w, set_stdout (stdout w ++ [s]) w).
Definition fprintf_stderr (s : string) : M unit :=
  modify (λ w, set_stderr (stderr w ++ [s]) w).

(** Access to a live bufferevent through its handle. *)
Definition get_bev (fd : Z) : M bufferevent := λ w,
  match conns w !! fd with
  | Some bev => Some (bev, w)
  | None => None
  end.
Definition put_bev (fd : Z) (bev : bufferevent) : M unit :=
  modify (λ w, set_conns (<[fd := bev]> (conns w)) w).

(** Modelled from the spec: construction of a Connection for an accepted
    socket, with its inbound and outbound buffers (sections 3 and 4.1), by
    [bufferevent_socket_new(base, fd, options)].  The result is NULL when
    the allocation fails, which the environment decides ([alloc_ok]); a new
    bufferevent has empty buffers, no callbacks and only writing enabled. *)
Definition bufferevent_socket_new (alloc_ok : bool) (fd : Z) (options : Z)
    : M (option Z) :=
  if alloc_ok
  then put_bev fd (Bufferevent [] [] options None None None EV_WRITE);;
       mret (Some fd)
  else mret None.

(** Modelled from the spec: registration of the Connection "for
    readable/writable/error notifications" (section 4.1), which main.c does
    in two calls, [bufferevent_setcb] and [bufferevent_enable]. *)
Definition bufferevent_setcb (fd : Z)
    (readcb writecb : option bufferevent_data_cb)
    (eventcb : option bufferevent_event_cb) : M unit :=
  bev ← get_bev fd;
  put_bev fd (Bufferevent (bev_input bev) (bev_output bev) (bev_options bev)
                          readcb writecb eventcb (bev_enabled bev)).

(** [bufferevent_enable] adds the bits of [what] to those enabled. *)
Definition bufferevent_enable (fd : Z) (what : Z) : M unit :=
  bev ← get_bev fd;
  put_bev fd (Bufferevent (bev_input bev) (bev_output bev) (bev_options bev)
                          (bev_readcb bev) (bev_writecb bev) (bev_eventcb bev)
                          (Z.lor (bev_enabled bev) what)).

(** Modelled from the spec: release of a Connection, "both buffers and the
    socket are released together" (section 3), by [bufferevent_free].  The
    bufferevent and its two buffers are gone; the socket is closed with
    them when the bufferevent was created with [BEV_OPT_CLOSE_ON_FREE]. *)
Definition bufferevent_free (fd : Z) : M unit :=
  bev ← get_bev fd;
  modify (λ w, set_conns (delete fd (conns w)) w);;
  when (c_true (Z.land (bev_options bev) BEV_OPT_CLOSE_ON_FREE))
       (modify (λ w, set_closed_fds ({[fd]} ∪ closed_fds w) w)).

(** Modelled from the spec: "the loop is asked to stop" (section 7), by
    [event_base_loopbreak]; the loop stops after the running callback. *)
Definition event_base_loopbreak : M unit := modify (set_event_break true).

(** Modelled from the spec: the Shutdown Timer is "a scheduled, one-shot
    delayed loop termination", "not re-armable" (section 3).  Each call of
    [event_base_loopexit] arms one more such timer, due [tv] after the
    current time; a timer already armed is left as it is (libevent arms a
    new one-shot timeout event per call, with [event_base_once]). *)
Definition event_base_loopexit (tv : timeval) : M unit :=
  modify (λ w, set_exit_timers (exit_timers w ++ [now w + timeval_usec tv]) w).

(** Modelled from the spec: the construction steps of the Server, "construct
    the event loop, construct and bind the Listener on it, construct and arm
    the Shutdown Controller on it" (section 4.4), each of which can fail.
    Whether each one succeeds is decided by the environment. *)
Record startup_env : Type := Startup_env
  { base_new_ok : bool;
    listener_bind_ok : bool;
    evsignal_new_ok : bool;
    event_add_result : Z }.

Definition event_base_new (ok : bool) : M bool :=
  if ok then modify (set_base_alive true);; mret true else mret false.

Definition evconnlistener_new_bind (ok : bool) (cb : evconnlistener_cb)
    (flags backlog : Z) (sa : sockaddr_in) : M bool :=
  if ok
  then modify (set_listener (Some (Evconnlistener cb flags backlog sa)));;
       mret true
  else mret false.

(** [evsignal_new] makes a persistent event: once added it stays armed,
    however often the signal arrives. *)
Definition evsignal_new (ok : bool) (signum : Z) (cb : event_callback_fn) : M bool :=
  if ok
  then modify (set_signal_event (Some (Event signum cb false)));; mret true
  else mret false.

(** [event_add(ev, NULL)] returns [result]; the event is armed unless the
    result is negative. *)
Definition event_add (result : Z) : M Z :=
  modify (λ w, match signal_event w with
               | Some ev =>
                   if result <? 0 then w
                   else set_signal_event (Some (Event (ev_signum ev) (ev_cb ev) true)) w
               | None => w
               end);;
  mret result.

(** Modelled from the spec: "release Listener, Shutdown Controller, and
    loop, in that order" (section 4.4). *)
Definition evconnlistener_free : M unit := modify (set_listener None).
Definition event_free : M unit := modify (set_signal_event None).
Definition event_base_free : M unit := modify (set_base_alive false).

(** ** The callbacks of main.c *)

Section Callbacks.
Context {T : Transport}.

(** [conn_writecb] (lines 75-81). *)
Definition conn_writecb (bev : Z) : M unit :=
  b ← get_bev bev;
  let output := bev_output b in
  when (evbuffer_get_length output =? 0) (printf ("Answered" +:+ nl)).

(** [conn_readcb] (lines 83-96); the local array [buf] is never used.
    The [while (1)] loop is given one pass more than there are bytes in the
    input buffer, which is enough for every transport that obeys
    [TransportLaws]. *)
Definition conn_readcb (bev : Z) : M unit :=
  b ← get_bev bev;
  let evbuf_in := bev_input b in
  let evbuf_out := bev_output b in
  r ← lift_option (conn_readcb_loop (S (length evbuf_in)) evbuf_in evbuf_out []);
  put_bev bev (Bufferevent r.1.1 r.1.2 (bev_options b) (bev_readcb b)
                           (bev_writecb b) (bev_eventcb b) (bev_enabled b));;
  printf ("Received" +:+ nl).

(** [conn_eventcb] (lines 98-129); [err] is [strerror(errno)]. *)
Definition conn_eventcb (bev : Z) (events : Z) (err : string) : M unit :=
  when (c_true (Z.land events BEV_EVENT_READING))
       (printf ("Error encountered while reading: " +:+ err +:+ nl));;
  when (c_true (Z.land events BEV_EVENT_WRITING))
       (printf ("Error encountered while writing: " +:+ err +:+ nl));;
  when (c_true (Z.land events BEV_EVENT_EOF))
       (printf ("Eof reached." +:+ nl));;
  when (c_true (Z.land events BEV_EVENT_ERROR))
       (printf ("Unrecoverable error encountered: " +:+ err +:+ nl));;
  when (c_true (Z.land events BEV_EVENT_TIMEOUT))
       (printf ("User-specified timeout reached." +:+ nl));;
  when (c_true (Z.land events BEV_EVENT_CONNECTED))
       (printf ("Connect operation finished." +:+ nl));;
  bufferevent_free bev.

(** [signal_cb] (lines 131-139). *)
Definition signal_cb : M unit :=
  let delay := Timeval 2 0 in
  printf ("Caught an interrupt signal; exiting cleanly in two seconds." +:+ nl);;
  event_base_loopexit delay.

(** [listener_cb] (lines 61-73); [alloc_ok] is the environment's answer
    to the allocation inside [bufferevent_socket_new]. *)
Definition listener_cb (fd : Z) (alloc_ok : bool) : M unit :=
  bev ← bufferevent_socket_new alloc_ok fd BEV_OPT_CLOSE_ON_FREE;
  match bev with
  | None =>
      fprintf_stderr "Error constructing bufferevent!";;
      event_base_loopbreak
  | Some bev =>
      bufferevent_setcb bev (Some Conn_readcb) (Some Conn_writecb) (Some Conn_eventcb);;
      bufferevent_enable bev (Z.lor EV_WRITE EV_READ)
  end.

End Callbacks.

(** ** The event loop

    What the loop hands to the program, one notification at a time. *)
Inductive io_event : Type :=
| Accept (fd : Z) (alloc_ok : bool)
    (** a connection was accepted on the listening socket *)
| Readable (fd : Z) (data : list byte)
    (** [data] arrived on socket [fd] *)
| Writable (fd : Z) (n : nat)
    (** socket [fd] can take [n] more bytes *)
| ConnEvent (fd : Z) (events : Z) (err : string)
    (** status change of socket [fd]; [err] is [strerror(errno)] *)
| Signal (signum : Z).

(** A schedule is the list of notifications with their arrival times. *)
Definition schedule : Type := list (Z * io_event).

Inductive loop_exit : Type :=
| Loopexit (deadline : Z)
| Loopbreak.

(** Earliest deadline among the armed exit timers. *)
Definition earliest (timers : list Z) : option Z :=
  match timers with
  | [] => None
  | d :: rest => Some (fold_right Z.min d rest)
  end.

(** The exit timer that has fired by time [t], if any. *)
Definition due (timers : list Z) (t : Z) : option Z :=
  match earliest timers with
  | Some d => if d <=? t then Some d else None
  | None => None
  end.

Section Loop.
Context {T : Transport}.

Definition call_data_cb (cb : bufferevent_data_cb) (bev : Z) : M unit :=
  match cb with
  | Conn_readcb => conn_readcb bev
  | Conn_writecb => conn_writecb bev
  end.

Definition call_event_cb (cb : bufferevent_event_cb) (bev : Z) (events : Z)
    (err : string) : M unit :=
  match cb with
  | Conn_eventcb => conn_eventcb bev events err
  end.

Definition call_listener_cb (cb : evconnlistener_cb) (fd : Z) (alloc_ok : bool)
    : M unit :=
  match cb with
  | Listener_cb => listener_cb fd alloc_ok
  end.

Definition call_event_callback_fn (cb : event_callback_fn) : M unit :=
  match cb with
  | Signal_cb => signal_cb
  end.

(** Modelled from the spec: the transport's contract of section 6, "a
    readiness/event notification callback per connection" and "a listener
    primitive that invokes a callback with a newly accepted socket handle".
    Data that arrives is appended to the input buffer before the read
    callback runs; a writable socket takes bytes off the front of the output
    buffer before the write callback runs; a notification for a socket
    without a live bufferevent, or for which nothing is registered, is
    dropped.  A signal without a registered event is passed over as well:
    what the system does with it by default is not part of the model. *)
Definition deliver (ev : io_event) : M unit :=
  match ev with
  | Accept fd alloc_ok =>
      l ← gets listener;
      match l with
      | Some l => call_listener_cb (lev_cb l) fd alloc_ok
      | None => mret tt
      end
  | Readable fd data =>
      c ← gets conns;
      match c !! fd with
      | Some b =>
          if c_true (Z.land (bev_enabled b) EV_READ)
          then
            put_bev fd (Bufferevent (bev_input b ++ data) (bev_output b)
                          (bev_options b) (bev_readcb b) (bev_writecb b)
                          (bev_eventcb b) (bev_enabled b));;
            match bev_readcb b with
            | Some cb => call_data_cb cb fd
            | None => mret tt
            end
          else mret tt
      | None => mret tt
      end
  | Writable fd n =>
      c ← gets conns;
      match c !! fd with
      | Some b =>
          if c_true (Z.land (bev_enabled b) EV_WRITE)
          then
            modify (λ w, set_wire (<[fd := default [] (wire w !! fd)
                                            ++ take n (bev_output b)]> (wire w)) w);;
            put_bev fd (Bufferevent (bev_input b) (drop n (bev_output b))
                          (bev_options b) (bev_readcb b) (bev_writecb b)
                          (bev_eventcb b) (bev_enabled b));;
            match bev_writecb b with
            | Some cb => call_data_cb cb fd
            | None => mret tt
            end
          else mret tt
      | None => mret tt
      end
  | ConnEvent fd events err =>
      c ← gets conns;
      match c !! fd with
      | Some b =>
          match bev_eventcb b with
          | Some cb => call_event_cb cb fd events err
          | None => mret tt
          end
      | None => mret tt
      end
  | Signal signum =>
      e ← gets signal_event;
      match e with
      | Some e =>
          if ev_added e && (ev_signum e =? signum)
          then call_event_callback_fn (ev_cb e)
          else mret tt
      | None => mret tt
      end
  end.

(** Modelled from the spec: the event loop of the transport (section 6),
    with the two ways of stopping it that the program uses.  Before each
    notification the loop looks at its exit timers: if one has fired it
    returns.  Otherwise it runs the callback, and returns if the callback
    asked for a break.  With no notification left it sleeps until the first
    exit timer, or for ever when none is armed. *)
Fixpoint event_base_dispatch (sched : schedule) : M loop_exit :=
  match sched with
  | [] =>
      timers ← gets exit_timers;
      match earliest timers with
      | Some d => modify (set_now d);; mret (Loopexit d)
      | None => no_return
      end
  | (t, ev) :: rest =>
      timers ← gets exit_timers;
      match due timers t with
      | Some d => modify (set_now d);; mret (Loopexit d)
      | None =>
          modify (set_now t);;
          deliver ev;;
          brk ← gets event_break;
          if brk : bool then mret Loopbreak else event_base_dispatch rest
      end
  end.

(** Delivery of every notification of a schedule, one after the other:
    what the loop does as long as nothing stops it. *)
Fixpoint serve_all (sched : schedule) : M unit :=
  match sched with
  | [] => mret tt
  | (t, ev) :: rest => modify (set_now t);; deliver ev;; serve_all rest
  end.

(** ** [main] (lines 21-59) *)
Definition main (env : startup_env) (sched : schedule) : M Z :=
  base ← event_base_new (base_new_ok env);
  if negb base then
    fprintf_stderr ("Could not initialize libevent!" +:+ nl);;
    mret 1
  else
  let sin := Sockaddr_in AF_INET (htons PORT) 0 in
  listener ← evconnlistener_new_bind (listener_bind_ok env) Listener_cb
               (Z.lor LEV_OPT_REUSEABLE LEV_OPT_CLOSE_ON_FREE) (-1) sin;
  if negb listener then
    fprintf_stderr ("Could not create a listener!" +:+ nl);;
    mret 1
  else
  signal_event ← evsignal_new (evsignal_new_ok env) SIGINT Signal_cb;
  failed ← (if negb signal_event then mret true
            else r ← event_add (event_add_result env); mret (r <? 0));
  if failed : bool then
    fprintf_stderr ("Could not create/add a signal event!" +:+ nl);;
    mret 1
  else
  printf ("Start listening the port: " +:+ pretty PORT +:+ nl);;
  event_base_dispatch sched;;
  evconnlistener_free;;
  event_free;;
  event_base_free;;
  printf ("done" +:+ nl);;
  mret 0.

(** [main] with the call of the library's event loop (line 51) left open:
    whatever [loop] does stands for [event_base_dispatch(base)].  [main]
    is the instance at [event_base_dispatch]; the general form shows in
    which state the loop is entered. *)
Definition main_with (loop : M loop_exit) (env : startup_env) : M Z :=
  base ← event_base_new (base_new_ok env);
  if negb base then
    fprintf_stderr ("Could not initialize libevent!" +:+ nl);;
    mret 1
  else
  let sin := Sockaddr_in AF_INET (htons PORT) 0 in
  listener ← evconnlistener_new_bind (listener_bind_ok env) Listener_cb
               (Z.lor LEV_OPT_REUSEABLE LEV_OPT_CLOSE_ON_FREE) (-1) sin;
  if negb listener then
    fprintf_stderr ("Could not create a listener!" +:+ nl);;
    mret 1
  else
  signal_event ← evsignal_new (evsignal_new_ok env) SIGINT Signal_cb;
  failed ← (if negb signal_event then mret true
            else r ← event_add (event_add_result env); mret (r <? 0));
  if failed : bool then
    fprintf_stderr ("Could not create/add a signal event!" +:+ nl);;
    mret 1
  else
  printf ("Start listening the port: " +:+ pretty PORT +:+ nl);;
  loop;;
  evconnlistener_free;;
  event_free;;
  event_base_free;;
  printf ("done" +:+ nl);;
  mret 0.

End Loop.

(** ** Vocabulary of the statements *)

(** Lifecycle state of the connection on socket [fd]: it is [ACTIVE] while
    its bufferevent is live and [CLOSED] once it has been freed. *)
Inductive conn_state : Type := ACTIVE | CLOSED.

Definition state_of (w : world) (fd : Z) : conn_state :=
  match conns w !! fd with
  | Some _ => ACTIVE
  | None => CLOSED
  end.

(** A bufferevent as [listener_cb] leaves it. *)
Definition accepted_bev (b : bufferevent) : Prop :=
  bev_options b = BEV_OPT_CLOSE_ON_FREE
  ∧ bev_readcb b = Some Conn_readcb
  ∧ bev_writecb b = Some Conn_writecb
  ∧ bev_eventcb b = Some Conn_eventcb
  ∧ bev_enabled b = Z.lor EV_WRITE (Z.lor EV_WRITE EV_READ).

(** The bits of the event mask that report the end of a connection. *)
Definition terminating_mask : Z :=
  Z.lor BEV_EVENT_READING
    (Z.lor BEV_EVENT_WRITING (Z.lor BEV_EVENT_EOF BEV_EVENT_ERROR)).

(** The lines [conn_eventcb] prints for a mask. *)
Definition event_lines (events : Z) (err : string) : list string :=
  (if c_true (Z.land events BEV_EVENT_READING)
   then ["Error encountered while reading: " +:+ err +:+ nl] else [])
  ++ (if c_true (Z.land events BEV_EVENT_WRITING)
      then ["Error encountered while writing: " +:+ err +:+ nl] else [])
  ++ (if c_true (Z.land events BEV_EVENT_EOF)
      then ["Eof reached." +:+ nl] else [])
  ++ (if c_true (Z.land events BEV_EVENT_ERROR)
      then ["Unrecoverable error encountered: " +:+ err +:+ nl] else [])
  ++ (if c_true (Z.land events BEV_EVENT_TIMEOUT)
      then ["User-specified timeout reached." +:+ nl] else [])
  ++ (if c_true (Z.land events BEV_EVENT_CONNECTED)
      then ["Connect operation finished." +:+ nl] else []).

(** The state in which [main] enters the event loop. *)
Definition ready_world : world :=
  {| now := 0; base_alive := true;
     listener := Some (Evconnlistener Listener_cb
                         (Z.lor LEV_OPT_REUSEABLE LEV_OPT_CLOSE_ON_FREE) (-1)
                         (Sockaddr_in AF_INET (htons PORT) 0));
     signal_event := Some (Event SIGINT Signal_cb true);
     conns := ∅; closed_fds := ∅; wire := ∅; exit_timers := [];
     event_break := false;
     stdout := ["Start listening the port: 9995" +:+ nl]; stderr := [] |}.

(** What [main] does after the loop has returned. *)
Definition teardown (w : world) : world :=
  set_stdout (stdout w ++ ["done" +:+ nl])
    (set_base_alive false (set_signal_event None (set_listener None w))).

Definition startup_ok (env : startup_env) : bool :=
  base_new_ok env && listener_bind_ok env && evsignal_new_ok env
  && negb (event_add_result env <? 0).

Definition is_interrupt (ev : io_event) : bool :=
  match ev with
  | Signal signum => signum =? SIGINT
  | _ => false
  end.

Definition is_signal (ev : io_event) : bool :=
  match ev with
  | Signal _ => true
  | _ => false
  end.

Definition is_failed_accept (ev : io_event) : bool :=
  match ev with
  | Accept _ alloc_ok => negb alloc_ok
  | _ => false
  end.

(** Notifications that end or replace the bufferevent of socket [fd]. *)
Definition resets (fd : Z) (ev : io_event) : bool :=
  match ev with
  | Accept fd' _ => bool_decide (fd' = fd)
  | ConnEvent fd' _ _ => bool_decide (fd' = fd)
  | _ => false
  end.

(** The bytes a schedule brings in on socket [fd], in order of arrival. *)
Fixpoint received (fd : Z) (sched : schedule) : list byte :=
  match sched with
  | [] => []
  | (_, Readable fd' data) :: rest =>
      if bool_decide (fd' = fd) then data ++ received fd rest
      else received fd rest
  | _ :: rest => received fd rest
  end.

(** The bytes of socket [fd] that have left the input side: those already
    on the wire followed by those still in the output buffer. *)
Definition echoed (w : world) (fd : Z) : list byte :=
  default [] (wire w !! fd) ++ default [] (bev_output <$> conns w !! fd).

(** A bufferevent whose input has been moved behind its output. *)
Definition drained (b : bufferevent) : bufferevent :=
  Bufferevent [] (bev_output b ++ bev_input b) (bev_options b) (bev_readcb b)
              (bev_writecb b) (bev_eventcb b) (bev_enabled b).

(** [n] invocations of a callback in a row. *)
Fixpoint repeat_m (n : nat) (m : M unit) : M unit :=
  match n with
  | O => mret tt
  | S n' => m;; repeat_m n' m
  end.

(** The state after bufferevent [b] of socket [fd] has been freed. *)
Definition released (fd : Z) (b : bufferevent) (w : world) : world :=
  let w1 := set_conns (delete fd (conns w)) w in
  if c_true (Z.land (bev_options b) BEV_OPT_CLOSE_ON_FREE)
  then set_closed_fds ({[fd]} ∪ closed_fds w1) w1
  else w1.

(** The bufferevent [listener_cb] builds for a new socket. *)
Definition fresh_bev : bufferevent :=
  Bufferevent [] [] BEV_OPT_CLOSE_ON_FREE (Some Conn_readcb) (Some Conn_writecb)
              (Some Conn_eventcb) (Z.lor EV_WRITE (Z.lor EV_WRITE EV_READ)).

(** The loop is set up as [main] sets it up: the interrupt handler is
    armed and a listener is registered. *)
Definition armed (w : world) : Prop :=
  signal_event w = Some (Event SIGINT Signal_cb true) ∧ is_Some (listener w).

(** The grace period of [signal_cb], in microseconds. *)
Definition grace : Z := timeval_usec (Timeval 2 0).

(** The deadlines of the exit timers that the interrupts of a schedule arm:
    one per interrupt, [grace] after its arrival. *)
Fixpoint armed_by (sched : schedule) : list Z :=
  match sched with
  | [] => []
  | (t, ev) :: rest =>
      (if is_interrupt ev then [t + grace] else []) ++ armed_by rest
  end.

(** The notifications of a schedule that arrive before time [d], up to the
    first one that does not. *)
Fixpoint before (d : Z) (sched : schedule) : schedule :=
  match sched with
  | [] => []
  | (t, ev) :: rest => if t <? d then (t, ev) :: before d rest else []
  end.

(** Number of times the completion message was printed. *)
Definition completions (w : world) : nat :=
  count_occ string_dec (stdout w) ("done" +:+ nl).

(** The socket a notification is about. *)
Definition subject (ev : io_event) : option Z :=
  match ev with
  | Accept fd _ | Readable fd _ | Writable fd _ | ConnEvent fd _ _ => Some fd
  | Signal _ => None
  end.

(** Sample states and schedules used to exercise the statements: socket 7
    with a connection that has received "hi" and still owes ">", the same
    connection at rest, and a run with two interrupts one second apart. *)
Definition sample_bev : bufferevent :=
  Bufferevent [x68; x69]%byte [x3e]%byte BEV_OPT_CLOSE_ON_FREE (Some Conn_readcb)
              (Some Conn_writecb) (Some Conn_eventcb)
              (Z.lor EV_WRITE (Z.lor EV_WRITE EV_READ)).

Definition sample_world : world := set_conns {[7 := sample_bev]} ready_world.

Definition idle_bev : bufferevent :=
  Bufferevent [] [x3e]%byte BEV_OPT_CLOSE_ON_FREE (Some Conn_readcb)
              (Some Conn_writecb) (Some Conn_eventcb)
              (Z.lor EV_WRITE (Z.lor EV_WRITE EV_READ)).

Definition idle_world : world := set_conns {[7 := idle_bev]} ready_world.

Definition fresh_world : world := set_conns {[7 := fresh_bev]} ready_world.

Definition good_env : startup_env := Startup_env true true true 0.

Definition sample_pre : schedule :=
  [(0, Accept 5 true); (10, Readable 5 [x68; x69]%byte)].

Definition sample_post : schedule :=
  [(1000030, Signal SIGINT); (1500000, Writable 5 9%nat);
   (2500000, Readable 5 [x21]%byte)].

Definition sample_stream : schedule :=
  [(1, Readable 7 [x68]%byte); (2, Writable 7 1%nat);
   (3, Readable 8 [x21]%byte); (4, Readable 7 [x69]%byte)].

Definition two_interrupts : schedule :=
  [(0, Signal SIGINT); (1000000, Signal SIGINT); (2500000, Accept 5 true)].

(** Two transports that never move a byte: one reports 0 bytes moved, the
    other reports the failure value -1.  Both break [TransportLaws]; they
    show what the drain loop does without them. *)
Definition move_nothing (src dst : evbuffer) (datlen : Z) : evbuffer * evbuffer * Z :=
  (src, dst, 0).

Definition stuck_transport : Transport :=
  {| evbuffer_remove_buffer := move_nothing |}.

Definition move_refused (src dst : evbuffer) (datlen : Z) : evbuffer * evbuffer * Z :=
  (src, dst, -1).

Definition refusing_transport : Transport :=
  {| evbuffer_remove_buffer := move_refused |}.

(** The six conditions [conn_eventcb] tests, in the order of its [if]s,
    and the mask of their bits. *)
Definition reported_flags : list Z :=
  [BEV_EVENT_READING; BEV_EVENT_WRITING; BEV_EVENT_EOF; BEV_EVENT_ERROR;
   BEV_EVENT_TIMEOUT; BEV_EVENT_CONNECTED].

Definition reported_mask : Z := fold_right Z.lor 0 reported_flags.

(** Every live connection is as [listener_cb] set it up and has nothing
    waiting in its input buffer. *)
Definition settled (w : world) : Prop :=
  ∀ (fd : Z) (b : bufferevent),
    conns w !! fd = Some b → accepted_bev b ∧ bev_input b = [].

(** Notifications of a new connection on socket [fd]. *)
Definition accepts (fd : Z) (ev : io_event) : bool :=
  match ev with
  | Accept fd' _ => bool_decide (fd' = fd)
  | _ => false
  end.

(** A bufferevent after the socket has taken up to [n] bytes of its
    output. *)
Definition flushed (n : nat) (b : bufferevent) : bufferevent :=
  Bufferevent (bev_input b) (drop n (bev_output b)) (bev_options b)
              (bev_readcb b) (bev_writecb b) (bev_eventcb b) (bev_enabled b).

(** ** Proofs *)

Ltac munfold :=
  unfold printf, fprintf_stderr, get_bev, put_bev, when, lift_option,
    no_return, gets, modify, mbind, mret, M_bind, M_ret in *.

(** *** The transports obey the laws *)

Lemma move_bytes_laws (src dst : evbuffer) (datlen : Z) :
  0 ≤ datlen →
  ∃ moved rest : evbuffer,
    src = moved ++ rest
    ∧ move_bytes src dst datlen = (rest, dst ++ moved, Z.of_nat (length moved))
    ∧ Z.of_nat (length moved) ≤ datlen
    ∧ (0 < datlen → src ≠ [] → moved ≠ []).
Proof.
  intros Hn. exists (take (Z.to_nat datlen) src), (drop (Z.to_nat datlen) src).
  split; [by rewrite take_drop|]. split; [reflexivity|]. split.
  - rewrite length_take. lia.
  - intros Hpos Hsrc Hnil. apply (f_equal length) in Hnil.
    rewrite length_take in Hnil. destruct src; [done|]. simpl in Hnil. lia.
Qed.

Lemma spec_transport_laws : TransportLaws spec_transport.
Proof. constructor. exact move_bytes_laws. Qed.

Lemma trickle_transport_laws : TransportLaws trickle_transport.
Proof.
  constructor. intros src dst datlen Hn. simpl. unfold move_one_byte.
  destruct (move_bytes_laws src dst (Z.min 1 datlen)) as (moved & rest & H1 & H2 & H3 & H4);
    [lia|].
  exists moved, rest. repeat split; [done|done|lia|].
  intros Hpos. apply H4. lia.
Qed.

(** *** The drain loop *)

Lemma int_to_size_t_nonneg (z : Z) : 0 ≤ z → int_to_size_t z = z.
Proof. intros Hz. unfold int_to_size_t. destruct (Z.ltb_spec z 0); [lia|done]. Qed.

Lemma sumZ_app (l1 l2 : list Z) : sumZ (l1 ++ l2) = sumZ l1 + sumZ l2.
Proof. induction l1 as [|x l1 IH]; simpl; [lia|]. rewrite IH. lia. Qed.

Section DrainProofs.
Context {T : Transport} {L : TransportLaws T}.

(** With more passes allowed than there are bytes, the loop returns; it
    has then emptied the input and appended it to the output.  In every
    pass [writes] stays within the snapshot [inputs], it is positive unless
    there was nothing to move, and the values of [writes] add up to the
    number of bytes that were in the input. *)
Lemma conn_readcb_loop_spec (fuel : nat) :
  ∀ (evbuf_in evbuf_out : evbuffer) (log0 : list (Z * Z)),
    (length evbuf_in < fuel)%nat →
    ∃ log : list (Z * Z),
      conn_readcb_loop fuel evbuf_in evbuf_out log0
      = Some ([], evbuf_out ++ evbuf_in, log0 ++ log)
      ∧ sumZ (map snd log) = evbuffer_get_length evbuf_in
      ∧ Forall (λ p, 0 ≤ p.2 ≤ p.1 ∧ p.1 ≤ evbuffer_get_length evbuf_in) log
      ∧ (evbuf_in ≠ [] → Forall (λ p, 0 < p.2) log)
      ∧ (1 ≤ length log ≤ Nat.max 1 (length evbuf_in))%nat.
Proof.
  induction fuel as [|fuel IH]; intros evbuf_in evbuf_out log0 Hfuel; [lia|].
  simpl. unfold evbuffer_get_length.
  destruct (remove_buffer_moves evbuf_in evbuf_out (Z.of_nat (length evbuf_in)))
    as (moved & rest & Hsplit & Hmove & Hle & Hprog); [lia|].
  rewrite Hmove. cbv zeta. rewrite int_to_size_t_nonneg by lia.
  assert (Hlen : length evbuf_in = (length moved + length rest)%nat)
    by (rewrite Hsplit at 1; apply length_app).
  destruct (Z.leb_spec (Z.of_nat (length evbuf_in)) (Z.of_nat (length moved)))
    as [Hall|Hshort].
  - assert (rest = []) as -> by (destruct rest; [done|simpl in Hlen; lia]).
    rewrite app_nil_r in Hsplit. subst moved.
    exists [(Z.of_nat (length evbuf_in), Z.of_nat (length evbuf_in))].
    split; [done|]. split; [simpl; lia|]. split; [|split].
    + constructor; [simpl; lia|constructor].
    + intros Hne. constructor; [|constructor].
      destruct evbuf_in; [done|simpl; lia].
    + simpl. lia.
  - assert (Hmoved : moved ≠ []).
    { apply Hprog; [lia|]. intros ->. simpl in Hshort. lia. }
    assert (0 < length moved)%nat by (destruct moved; [done|simpl; lia]).
    destruct (IH rest (evbuf_out ++ moved)
                (log0 ++ [(Z.of_nat (length evbuf_in), Z.of_nat (length moved))]))
      as (log & Hrun & Hsum & Hbound & Hpos & Hpasses); [lia|].
    exists ((Z.of_nat (length evbuf_in), Z.of_nat (length moved)) :: log).
    rewrite Hrun. unfold evbuffer_get_length in *.
    split; [|split; [|split; [|split]]].
    + rewrite Hsplit. by rewrite <- !app_assoc.
    + simpl. lia.
    + constructor; [simpl; lia|].
      eapply Forall_impl; [exact Hbound|]. simpl. intros [a k]; simpl. lia.
    + intros _. constructor; [simpl; lia|].
      destruct rest as [|r rest]; [|by apply Hpos].
      exfalso. simpl in Hlen. lia.
    + simpl. lia.
Qed.

End DrainProofs.

(** *** Record bookkeeping *)

Lemma set_conns_id (w : world) : set_conns (conns w) w = w.
Proof. by destruct w. Qed.

Lemma drained_empty (b : bufferevent) : bev_input b = [] → drained b = b.
Proof. destruct b as [i o ? ? ? ? ?]; simpl. intros ->. unfold drained; simpl. by rewrite app_nil_r. Qed.

(** *** [conn_readcb] *)

Section ReadProofs.
Context {T : Transport} {L : TransportLaws T}.

(** The whole effect of one call of [conn_readcb] on a live bufferevent. *)
Lemma conn_readcb_exec (w : world) (bev : Z) (b : bufferevent) :
  conns w !! bev = Some b →
  conn_readcb bev w
  = Some (tt, set_stdout (stdout w ++ ["Received" +:+ nl])
                (set_conns (<[bev := drained b]> (conns w)) w)).
Proof.
  intros Hb. unfold conn_readcb. munfold. rewrite Hb.
  destruct (conn_readcb_loop_spec (S (length (bev_input b))) (bev_input b)
              (bev_output b) []) as (log & Hrun & _); [lia|].
  rewrite Hrun. reflexivity.
Qed.

Lemma conn_readcb_empty (w : world) (bev : Z) (b : bufferevent) :
  conns w !! bev = Some b → bev_input b = [] →
  conn_readcb bev w = Some (tt, set_stdout (stdout w ++ ["Received" +:+ nl]) w).
Proof.
  intros Hb Hin. rewrite (conn_readcb_exec w bev b Hb).
  rewrite (drained_empty b Hin), (insert_id _ _ _ Hb), set_conns_id. done.
Qed.

End ReadProofs.

(** *** The other callbacks, one call at a time *)

Lemma bind_exec {A B : Type} (m : M A) (k : A → M B) (w w' : world) (a : A) :
  m w = Some (a, w') → (m ≫= k) w = k a w'.
Proof. intros H. unfold mbind, M_bind. by rewrite H. Qed.

Lemma when_printf_exec (c : bool) (s : string) (w : world) :
  when c (printf s) w
  = Some (tt, set_stdout (stdout w ++ (if c then [s] else [])) w).
Proof. destruct c; munfold; [done|]. rewrite app_nil_r. by destruct w. Qed.

Lemma set_stdout_twice (l1 l2 : list string) (w : world) :
  set_stdout (stdout (set_stdout (stdout w ++ l1) w) ++ l2) (set_stdout (stdout w ++ l1) w)
  = set_stdout (stdout w ++ (l1 ++ l2)) w.
Proof. destruct w; unfold set_stdout; simpl. by rewrite <- app_assoc. Qed.

Lemma bufferevent_free_exec (w : world) (fd : Z) (b : bufferevent) :
  conns w !! fd = Some b →
  bufferevent_free fd w = Some (tt, released fd b w).
Proof.
  intros Hb. unfold bufferevent_free, released. munfold. rewrite Hb. simpl.
  by destruct (c_true _).
Qed.

Lemma conn_eventcb_exec (w : world) (bev : Z) (b : bufferevent) (events : Z)
    (err : string) :
  conns w !! bev = Some b →
  conn_eventcb bev events err w
  = Some (tt, released bev b (set_stdout (stdout w ++ event_lines events err) w)).
Proof.
  intros Hb. unfold conn_eventcb, event_lines.
  do 6 (erewrite bind_exec; [|apply when_printf_exec]; try rewrite set_stdout_twice).
  rewrite <- !app_assoc. apply bufferevent_free_exec. by destruct w.
Qed.

Lemma conn_writecb_exec {T : Transport} (w : world) (bev : Z) (b : bufferevent) :
  conns w !! bev = Some b →
  conn_writecb bev w
  = Some (tt, set_stdout (stdout w ++ (if evbuffer_get_length (bev_output b) =? 0
                                       then ["Answered" +:+ nl] else [])) w).
Proof.
  intros Hb. unfold conn_writecb. erewrite bind_exec; [|unfold get_bev; by rewrite Hb].
  apply when_printf_exec.
Qed.

Lemma signal_cb_exec (w : world) :
  signal_cb w
  = Some (tt, set_exit_timers (exit_timers w ++ [now w + grace])
                (set_stdout
                   (stdout w ++ ["Caught an interrupt signal; exiting cleanly in two seconds." +:+ nl])
                   w)).
Proof. reflexivity. Qed.

Lemma listener_cb_exec_ok (w : world) (fd : Z) :
  listener_cb fd true w = Some (tt, set_conns (<[fd := fresh_bev]> (conns w)) w).
Proof.
  unfold listener_cb, bufferevent_socket_new, bufferevent_setcb, bufferevent_enable.
  munfold. simpl. rewrite lookup_insert_eq. simpl. rewrite lookup_insert_eq. simpl.
  rewrite !insert_insert_eq. reflexivity.
Qed.

Lemma listener_cb_exec_fail (w : world) (fd : Z) :
  listener_cb fd false w
  = Some (tt, set_event_break true
                (set_stderr (stderr w ++ ["Error constructing bufferevent!"]) w)).
Proof. reflexivity. Qed.

(** *** One notification *)

Ltac not_done :=
  let H := fresh in
  intros H;
  repeat (apply elem_of_cons in H as [H|H]; [try discriminate H|]);
  try (by apply elem_of_nil in H).

Lemma event_lines_not_done (events : Z) (err : string) :
  ("done" +:+ nl) ∉ event_lines events err.
Proof.
  unfold event_lines.
  repeat (apply not_elem_of_app; split); destruct (c_true _); not_done.
Qed.

Section DeliverProofs.
Context {T : Transport} {L : TransportLaws T}.

(** Every notification is handled and the callback returns.  Only an
    interrupt arms an exit timer, only a failed bufferevent construction
    asks for a break, the clock and the registrations are left alone, and
    the completion message is never printed. *)
Lemma deliver_effect (ev : io_event) (w : world) :
  armed w →
  ∃ (w' : world) (lines : list string),
    deliver ev w = Some (tt, w')
    ∧ armed w'
    ∧ now w' = now w
    ∧ exit_timers w'
      = exit_timers w ++ (if is_interrupt ev then [now w + grace] else [])
    ∧ event_break w' = event_break w || is_failed_accept ev
    ∧ stdout w' = stdout w ++ lines
    ∧ ("done" +:+ nl) ∉ lines.
Proof.
  intros [Hsig [l Hl]]. destruct ev as [fd ok|fd data|fd n|fd events err|signum].
  - (* Accept *)
    unfold deliver. erewrite bind_exec; [|reflexivity]. rewrite Hl.
    destruct l as [[] ? ? ?]; simpl. destruct ok.
    + rewrite listener_cb_exec_ok. eexists _, []. split; [done|].
      repeat split; simpl; rewrite ?app_nil_r, ?orb_false_r; eauto. not_done.
    + rewrite listener_cb_exec_fail. eexists _, []. split; [done|].
      repeat split; simpl; rewrite ?app_nil_r, ?orb_true_r; eauto. not_done.
  - (* Readable *)
    unfold deliver. erewrite bind_exec; [|reflexivity].
    destruct (conns w !! fd) as [b|] eqn:Hb; [destruct (c_true _)|].
    + erewrite bind_exec; [|reflexivity].
      destruct (bev_readcb b) as [[|]|]; simpl.
      * erewrite conn_readcb_exec; [|simpl; apply lookup_insert_eq].
        eexists _, _. split; [done|].
        repeat split; simpl; rewrite ?app_nil_r, ?orb_false_r; eauto. not_done.
      * erewrite conn_writecb_exec; [|simpl; apply lookup_insert_eq].
        eexists _, _. split; [done|].
        repeat split; simpl; rewrite ?app_nil_r, ?orb_false_r; eauto.
        destruct (_ =? _); not_done.
      * eexists _, []. split; [done|].
        repeat split; simpl; rewrite ?app_nil_r, ?orb_false_r; eauto. not_done.
    + eexists _, []. split; [done|].
      repeat split; simpl; rewrite ?app_nil_r, ?orb_false_r; eauto. not_done.
    + eexists _, []. split; [done|].
      repeat split; simpl; rewrite ?app_nil_r, ?orb_false_r; eauto. not_done.
  - (* Writable *)
    unfold deliver. erewrite bind_exec; [|reflexivity].
    destruct (conns w !! fd) as [b|] eqn:Hb; [destruct (c_true _)|].
    + erewrite bind_exec; [|reflexivity]. erewrite bind_exec; [|reflexivity].
      destruct (bev_writecb b) as [[|]|]; simpl.
      * erewrite conn_readcb_exec; [|simpl; apply lookup_insert_eq].
        eexists _, _. split; [done|].
        repeat split; simpl; rewrite ?app_nil_r, ?orb_false_r; eauto. not_done.
      * erewrite conn_writecb_exec; [|simpl; apply lookup_insert_eq].
        eexists _, _. split; [done|].
        repeat split; simpl; rewrite ?app_nil_r, ?orb_false_r; eauto.
        destruct (_ =? _); not_done.
      * eexists _, []. split; [done|].
        repeat split; simpl; rewrite ?app_nil_r, ?orb_false_r; eauto. not_done.
    + eexists _, []. split; [done|].
      repeat split; simpl; rewrite ?app_nil_r, ?orb_false_r; eauto. not_done.
    + eexists _, []. split; [done|].
      repeat split; simpl; rewrite ?app_nil_r, ?orb_false_r; eauto. not_done.
  - (* ConnEvent *)
    unfold deliver. erewrite bind_exec; [|reflexivity].
    destruct (conns w !! fd) as [b|] eqn:Hb; [destruct (bev_eventcb b) as [[]|]|].
    + simpl. erewrite conn_eventcb_exec; [|done].
      eexists _, (event_lines events err). split; [done|].
      unfold released. destruct (c_true _);
        repeat split; simpl; rewrite ?app_nil_r, ?orb_false_r; eauto;
        apply event_lines_not_done.
    + eexists _, []. split; [done|].
      repeat split; simpl; rewrite ?app_nil_r, ?orb_false_r; eauto. not_done.
    + eexists _, []. split; [done|].
      repeat split; simpl; rewrite ?app_nil_r, ?orb_false_r; eauto. not_done.
  - (* Signal *)
    unfold deliver. erewrite bind_exec; [|reflexivity]. rewrite Hsig.
    cbn [ev_added ev_signum ev_cb andb call_event_callback_fn is_interrupt].
    rewrite (Z.eqb_sym SIGINT signum). destruct (signum =? SIGINT).
    + rewrite signal_cb_exec. eexists _, _. split; [done|].
      repeat split; simpl; rewrite ?app_nil_r, ?orb_false_r; eauto. not_done.
    + eexists _, []. split; [done|].
      repeat split; simpl; rewrite ?app_nil_r, ?orb_false_r; eauto. not_done.
Qed.

End DeliverProofs.

(** *** Exit timers *)

Lemma fold_min_le (d : Z) (l : list Z) :
  fold_right Z.min d l ≤ d ∧ Forall (λ x, fold_right Z.min d l ≤ x) l.
Proof.
  induction l as [|x l [IH1 IH2]]; simpl; [split; [lia|constructor]|].
  split; [lia|]. constructor; [lia|].
  eapply Forall_impl; [exact IH2|]. simpl. intros; lia.
Qed.

Lemma fold_min_in (d : Z) (l : list Z) : fold_right Z.min d l ∈ d :: l.
Proof.
  induction l as [|x l IH]; simpl; [left|].
  destruct (Z.min_spec x (fold_right Z.min d l)) as [[_ ->]|[_ ->]].
  - right; left.
  - apply elem_of_cons in IH as [->|IH]; [left|right; by right].
Qed.

Lemma earliest_spec (timers : list Z) (d : Z) :
  earliest timers = Some d ↔ d ∈ timers ∧ Forall (λ x, d ≤ x) timers.
Proof.
  destruct timers as [|x l]; simpl.
  - split; [done|]. intros [H _]. by apply elem_of_nil in H.
  - destruct (fold_min_le x l) as [H1 H2]. split.
    + intros [= <-]. split; [apply fold_min_in|by constructor].
    + intros [Hin Hall]. f_equal.
      pose proof (fold_min_in x l) as Hm.
      rewrite Forall_forall in Hall. specialize (Hall _ Hm).
      assert (fold_right Z.min x l ≤ d); [|lia].
      apply elem_of_cons in Hin as [->|Hin]; [done|].
      rewrite Forall_forall in H2. by apply H2.
Qed.

Lemma due_none (timers : list Z) (t : Z) :
  Forall (λ d, t < d) timers → due timers t = None.
Proof.
  intros Hall. unfold due. destruct (earliest timers) as [d|] eqn:He; [|done].
  apply earliest_spec in He as [Hin _]. rewrite Forall_forall in Hall.
  specialize (Hall _ Hin). destruct (Z.leb_spec d t); [lia|done].
Qed.

Lemma due_some (timers : list Z) (t d : Z) :
  earliest timers = Some d → d ≤ t → due timers t = Some d.
Proof. intros He Hle. unfold due. rewrite He. destruct (Z.leb_spec d t); [done|lia]. Qed.

Lemma armed_by_app (s1 s2 : schedule) : armed_by (s1 ++ s2) = armed_by s1 ++ armed_by s2.
Proof.
  induction s1 as [|[t ev] s1 IH]; simpl; [done|]. by rewrite IH, app_assoc.
Qed.

Lemma armed_by_quiet (sched : schedule) :
  Forall (λ e, is_interrupt e.2 = false) sched → armed_by sched = [].
Proof.
  induction 1 as [|[t ev] s Hq _ IH]; simpl in *; [done|]. by rewrite Hq, IH.
Qed.

Lemma armed_by_ge (t0 : Z) (sched : schedule) :
  Forall (λ e, t0 ≤ e.1) sched → Forall (λ d, t0 + grace ≤ d) (armed_by sched).
Proof.
  induction 1 as [|[t ev] s Hq _ IH]; simpl in *; [constructor|].
  destruct (is_interrupt ev); simpl; [constructor; [lia|done]|done].
Qed.

Lemma before_lt (d : Z) (sched : schedule) : Forall (λ e, e.1 < d) (before d sched).
Proof.
  induction sched as [|[t ev] s IH]; simpl; [constructor|].
  destruct (Z.ltb_spec t d); constructor; simpl; done.
Qed.

(** A schedule is its part before [d] followed by a rest that is empty or
    starts at [d] or later. *)
Lemma before_split (d : Z) (sched : schedule) :
  ∃ rest : schedule,
    sched = before d sched ++ rest
    ∧ match rest with [] => True | (t, _) :: _ => d ≤ t end.
Proof.
  induction sched as [|[t ev] s (rest & IH1 & IH2)]; simpl; [by exists []|].
  destruct (Z.ltb_spec t d).
  - exists rest. split; [simpl; by f_equal|done].
  - by exists ((t, ev) :: s).
Qed.

(** *** The loop *)

Lemma armed_set_now (t : Z) (w : world) : armed w → armed (set_now t w).
Proof. by intros [? ?]. Qed.

Section LoopProofs.
Context {T : Transport} {L : TransportLaws T}.

(** Serving a whole schedule: every callback returns, each interrupt arms
    its timer, and the completion message is not printed. *)
Lemma serve_all_effect (sched : schedule) :
  ∀ w : world,
    armed w →
    ∃ (w' : world) (lines : list string),
      serve_all sched w = Some (tt, w')
      ∧ armed w'
      ∧ exit_timers w' = exit_timers w ++ armed_by sched
      ∧ stdout w' = stdout w ++ lines
      ∧ ("done" +:+ nl) ∉ lines.
Proof.
  induction sched as [|[t ev] sched IH]; intros w Harmed; simpl.
  - exists w, []. rewrite !app_nil_r. split_and!; [done..|not_done].
  - erewrite bind_exec; [|reflexivity].
    destruct (deliver_effect ev (set_now t w) (armed_set_now t w Harmed))
      as (w1 & lines1 & Hrun1 & Harmed1 & _ & Htimers1 & _ & Hout1 & Hdone1).
    erewrite bind_exec; [|exact Hrun1].
    destruct (IH w1 Harmed1) as (w2 & lines2 & Hrun2 & Harmed2 & Htimers2 & Hout2 & Hdone2).
    exists w2, (lines1 ++ lines2). split; [done|]. split; [done|].
    split; [|split].
    + rewrite Htimers2, Htimers1. simpl. by rewrite <- app_assoc.
    + rewrite Hout2, Hout1. simpl. by rewrite <- app_assoc.
    + by apply not_elem_of_app.
Qed.

(** As long as no exit timer has fired and no callback asks for a break,
    the loop does exactly what [serve_all] does. *)
Lemma dispatch_runs (pre rest : schedule) :
  ∀ w : world,
    armed w →
    event_break w = false →
    Forall (λ e, is_failed_accept e.2 = false) pre →
    Forall (λ d, Forall (λ e, e.1 < d) pre) (exit_timers w ++ armed_by pre) →
    ∃ w' : world,
      serve_all pre w = Some (tt, w')
      ∧ event_break w' = false
      ∧ event_base_dispatch (pre ++ rest) w = event_base_dispatch rest w'.
Proof.
  induction pre as [|[t ev] pre IH]; intros w Harmed Hbrk Hacc Hlate.
  - by exists w.
  - apply Forall_cons in Hacc as [Hacc1 Hacc]. simpl in Hacc1.
    destruct (deliver_effect ev (set_now t w) (armed_set_now t w Harmed))
      as (w1 & lines1 & Hrun1 & Harmed1 & _ & Htimers1 & Hbrk1 & _).
    simpl in Htimers1, Hbrk1. rewrite Hbrk, Hacc1 in Hbrk1. simpl in Hbrk1.
    destruct (IH w1 Harmed1 Hbrk1 Hacc) as (w2 & Hrun2 & Hbrk2 & Hloop2).
    { rewrite Htimers1, <- app_assoc. simpl in Hlate.
      eapply Forall_impl; [exact Hlate|]. simpl. intros d Hd.
      by apply Forall_cons in Hd as [_ Hd]. }
    exists w2. split; [|split; [done|]].
    + simpl. erewrite bind_exec; [|reflexivity].
      erewrite bind_exec; [|exact Hrun1]. exact Hrun2.
    + simpl. erewrite bind_exec; [|reflexivity].
      rewrite due_none.
      2:{ apply Forall_app in Hlate as [Hlate _].
          eapply Forall_impl; [exact Hlate|]. simpl. intros d Hd.
          by apply Forall_cons in Hd as [Hd _]. }
      erewrite bind_exec; [|reflexivity].
      erewrite bind_exec; [|exact Hrun1].
      erewrite bind_exec; [|reflexivity]. rewrite Hbrk1. exact Hloop2.
Qed.

(** Once the earliest timer is due before the next notification, or if
    there is no further notification, the loop returns at that deadline. *)
Lemma dispatch_exits (rest : schedule) (w : world) (d : Z) :
  earliest (exit_timers w) = Some d →
  match rest with [] => True | (t, _) :: _ => d ≤ t end →
  event_base_dispatch rest w = Some (Loopexit d, set_now d w).
Proof.
  intros He Hrest. destruct rest as [|[t ev] rest]; simpl.
  - erewrite bind_exec; [|reflexivity]. by rewrite He.
  - erewrite bind_exec; [|reflexivity]. by rewrite (due_some _ _ _ He Hrest).
Qed.

(** A failed bufferevent construction stops the loop on the spot. *)
Lemma dispatch_breaks (t fd : Z) (rest : schedule) (w : world) :
  armed w →
  due (exit_timers w) t = None →
  event_base_dispatch ((t, Accept fd false) :: rest) w
  = Some (Loopbreak,
          set_event_break true
            (set_stderr (stderr w ++ ["Error constructing bufferevent!"])
               (set_now t w))).
Proof.
  intros [_ [l Hl]] Hdue. simpl. erewrite bind_exec; [|reflexivity].
  rewrite Hdue. erewrite bind_exec; [|reflexivity].
  erewrite bind_exec.
  2:{ unfold deliver. erewrite bind_exec; [|reflexivity]. simpl. rewrite Hl.
      destruct l as [[] ? ? ?]. simpl. apply listener_cb_exec_fail. }
  reflexivity.
Qed.

End LoopProofs.

(** *** [main] *)

Section MainProofs.
Context {T : Transport}.

Lemma main_startup_ok (env : startup_env) (sched : schedule) :
  startup_ok env = true →
  main env sched init_world
  = match event_base_dispatch sched ready_world with
    | Some (_, w) => Some (0, teardown w)
    | None => None
    end.
Proof.
  destruct env as [[] [] [] r]; unfold startup_ok; simpl; try done.
  intros Hr. apply negb_true_iff in Hr.
  unfold main. simpl. munfold. simpl. unfold event_add. munfold. simpl. rewrite Hr.
  lazymatch goal with
  | |- match event_base_dispatch sched ?w with _ => _ end = _ =>
      replace w with ready_world by (vm_compute; reflexivity)
  end.
  by destruct (event_base_dispatch sched ready_world) as [[? ?]|].
Qed.

Lemma main_startup_fails (env : startup_env) (sched : schedule) :
  startup_ok env = false →
  ∃ (w : world) (diagnostic : string),
    main env sched init_world = Some (1, w)
    ∧ conns w = ∅ ∧ wire w = ∅ ∧ closed_fds w = ∅
    ∧ stdout w = [] ∧ stderr w = [diagnostic].
Proof.
  destruct env as [b l s r]; unfold startup_ok; simpl. intros Hfail.
  unfold main, event_base_new, evconnlistener_new_bind, evsignal_new, event_add.
  munfold. simpl.
  destruct b; simpl; [|eexists _, _; split; [reflexivity|by repeat split]].
  destruct l; simpl; [|eexists _, _; split; [reflexivity|by repeat split]].
  destruct s; simpl; [|eexists _, _; split; [reflexivity|by repeat split]].
  simpl in Hfail. destruct (r <? 0); [|done]. simpl.
  eexists _, _; split; [reflexivity|by repeat split].
Qed.

(** Whatever the loop does, it is entered in [ready_world], and what it
    leaves is torn down. *)
Lemma main_with_startup_ok (loop : M loop_exit) (env : startup_env) :
  startup_ok env = true →
  main_with loop env init_world
  = match loop ready_world with
    | Some (_, w) => Some (0, teardown w)
    | None => None
    end.
Proof.
  destruct env as [[] [] [] r]; unfold startup_ok; simpl; try done.
  intros Hr. apply negb_true_iff in Hr.
  unfold main_with. simpl. munfold. simpl. unfold event_add. munfold. simpl.
  rewrite Hr.
  lazymatch goal with
  | |- match loop ?w with _ => _ end = _ =>
      replace w with ready_world by (vm_compute; reflexivity)
  end.
  by destruct (loop ready_world) as [[? ?]|].
Qed.

(** When startup fails [main] never looks at the schedule. *)
Lemma main_startup_fails_any (env : startup_env) (sched : schedule) :
  startup_ok env = false →
  main env sched init_world = main env [] init_world.
Proof.
  destruct env as [b l s r]; unfold startup_ok; simpl. intros Hfail.
  unfold main, event_base_new, evconnlistener_new_bind, evsignal_new, event_add.
  munfold. simpl.
  destruct b; simpl; [|done]. destruct l; simpl; [|done].
  destruct s; simpl; [|done]. simpl in Hfail. by destruct (r <? 0).
Qed.

Lemma startup_ok_false (env : startup_env) :
  startup_ok env = false
  ↔ base_new_ok env = false ∨ listener_bind_ok env = false
    ∨ evsignal_new_ok env = false ∨ event_add_result env < 0.
Proof.
  unfold startup_ok. rewrite !andb_false_iff, negb_false_iff, Z.ltb_lt. tauto.
Qed.

End MainProofs.

(** *** Connections do not interfere *)

Section IsolationProofs.
Context {T : Transport} {L : TransportLaws T}.

(** Every callback returns, whatever is registered. *)
Lemma deliver_returns (ev : io_event) (w : world) :
  ∃ w' : world, deliver ev w = Some (tt, w').
Proof.
  destruct ev as [fd' ok|fd' data|fd' n|fd' events err|signum]; unfold deliver;
    (erewrite bind_exec; [|reflexivity]).
  - destruct (listener w) as [[[] ? ? ?]|]; simpl; [|by eexists].
    destruct ok; [rewrite listener_cb_exec_ok|rewrite listener_cb_exec_fail];
      by eexists.
  - destruct (conns w !! fd') as [b|] eqn:Hb; [destruct (c_true _)|];
      try (by eexists).
    erewrite bind_exec; [|reflexivity].
    destruct (bev_readcb b) as [[|]|]; simpl; [| |by eexists].
    + erewrite conn_readcb_exec; [by eexists|simpl; apply lookup_insert_eq].
    + erewrite conn_writecb_exec; [by eexists|simpl; apply lookup_insert_eq].
  - destruct (conns w !! fd') as [b|] eqn:Hb; [destruct (c_true _)|];
      try (by eexists).
    erewrite bind_exec; [|reflexivity]. erewrite bind_exec; [|reflexivity].
    destruct (bev_writecb b) as [[|]|]; simpl; [| |by eexists].
    + erewrite conn_readcb_exec; [by eexists|simpl; apply lookup_insert_eq].
    + erewrite conn_writecb_exec; [by eexists|simpl; apply lookup_insert_eq].
  - destruct (conns w !! fd') as [b|] eqn:Hb; [destruct (bev_eventcb b) as [[]|]|];
      try (by eexists).
    simpl. erewrite conn_eventcb_exec; [by eexists|done].
  - destruct (signal_event w) as [[s [] a]|]; [|by eexists].
    destruct (_ && _); [|by eexists]. simpl. rewrite signal_cb_exec. by eexists.
Qed.

(** A notification leaves the bufferevent and the wire of every socket
    other than its own as they are. *)
Lemma deliver_frame (ev : io_event) (w w' : world) (fd : Z) :
  subject ev ≠ Some fd →
  deliver ev w = Some (tt, w') →
  conns w' !! fd = conns w !! fd ∧ wire w' !! fd = wire w !! fd.
Proof.
  intros Hne. assert (∀ fd', subject ev = Some fd' → fd' ≠ fd) as Hfd
    by (intros fd' Hs ->; done).
  destruct ev as [fd' ok|fd' data|fd' n|fd' events err|signum]; unfold deliver;
    (erewrite bind_exec; [|reflexivity]).
  - specialize (Hfd fd' eq_refl).
    destruct (listener w) as [[[] ? ? ?]|]; simpl; [|by intros [= <-]].
    destruct ok.
    + rewrite listener_cb_exec_ok. intros [= <-]. simpl.
      by rewrite lookup_insert_ne.
    + rewrite listener_cb_exec_fail. by intros [= <-].
  - specialize (Hfd fd' eq_refl).
    destruct (conns w !! fd') as [b|] eqn:Hb; [destruct (c_true _)|];
      try (by intros [= <-]).
    erewrite bind_exec; [|reflexivity].
    destruct (bev_readcb b) as [[|]|]; simpl.
    + erewrite conn_readcb_exec; [|simpl; apply lookup_insert_eq].
      intros [= <-]. simpl. by rewrite !lookup_insert_ne.
    + erewrite conn_writecb_exec; [|simpl; apply lookup_insert_eq].
      intros [= <-]. simpl. by rewrite !lookup_insert_ne.
    + intros [= <-]. simpl. by rewrite !lookup_insert_ne.
  - specialize (Hfd fd' eq_refl).
    destruct (conns w !! fd') as [b|] eqn:Hb; [destruct (c_true _)|];
      try (by intros [= <-]).
    erewrite bind_exec; [|reflexivity]. erewrite bind_exec; [|reflexivity].
    destruct (bev_writecb b) as [[|]|]; simpl.
    + erewrite conn_readcb_exec; [|simpl; apply lookup_insert_eq].
      intros [= <-]. simpl. by rewrite !lookup_insert_ne.
    + erewrite conn_writecb_exec; [|simpl; apply lookup_insert_eq].
      intros [= <-]. simpl. by rewrite !lookup_insert_ne.
    + intros [= <-]. simpl. by rewrite !lookup_insert_ne.
  - specialize (Hfd fd' eq_refl).
    destruct (conns w !! fd') as [b|] eqn:Hb; [destruct (bev_eventcb b) as [[]|]|];
      try (by intros [= <-]).
    simpl. erewrite conn_eventcb_exec; [|done]. intros [= <-].
    unfold released. destruct (c_true _); simpl; by rewrite lookup_delete_ne.
  - destruct (signal_event w) as [[s [] a]|]; [|by intros [= <-]].
    destruct (_ && _); [|by intros [= <-]].
    simpl. rewrite signal_cb_exec. by intros [= <-].
Qed.

(** On a connection set up by [listener_cb] whose input buffer is empty,
    a notification that neither ends nor replaces it keeps it that way and
    adds exactly the bytes that arrived to what has been echoed. *)
Lemma deliver_echo (t : Z) (ev : io_event) (w : world) (fd : Z) (b : bufferevent) :
  conns w !! fd = Some b → accepted_bev b → bev_input b = [] →
  resets fd ev = false →
  ∃ (w' : world) (b' : bufferevent),
    deliver ev w = Some (tt, w')
    ∧ conns w' !! fd = Some b' ∧ accepted_bev b' ∧ bev_input b' = []
    ∧ echoed w' fd = echoed w fd ++ received fd [(t, ev)].
Proof.
  intros Hb Hacc Hin Hres.
  destruct (decide (subject ev = Some fd)) as [Hsub|Hsub].
  - destruct Hacc as (Hopt & Hrd & Hwr & Hev & Hen).
    destruct ev as [fd' ok|fd' data|fd' n|fd' events err|signum];
      simpl in Hsub; try done; injection Hsub as ->.
    + simpl in Hres. by rewrite bool_decide_eq_true_2 in Hres.
    + unfold deliver. erewrite bind_exec; [|reflexivity]. rewrite Hb, Hen. simpl.
      erewrite bind_exec; [|reflexivity]. rewrite Hrd. simpl.
      erewrite conn_readcb_exec; [|simpl; apply lookup_insert_eq].
      eexists _, _. split; [done|]. simpl. rewrite lookup_insert_eq.
      split; [done|]. split; [done|]. split; [done|].
      unfold echoed. simpl. rewrite lookup_insert_eq, Hb. simpl.
      rewrite bool_decide_eq_true_2 by done. rewrite Hin, app_nil_r. simpl.
      by rewrite app_assoc.
    + unfold deliver. erewrite bind_exec; [|reflexivity]. rewrite Hb, Hen. simpl.
      erewrite bind_exec; [|reflexivity]. erewrite bind_exec; [|reflexivity].
      rewrite Hwr. simpl.
      erewrite conn_writecb_exec; [|simpl; apply lookup_insert_eq].
      eexists _, _. split; [done|]. simpl. rewrite lookup_insert_eq.
      split; [done|]. split; [done|]. split; [done|].
      unfold echoed. simpl. rewrite !lookup_insert_eq, Hb. simpl.
      by rewrite app_nil_r, <- app_assoc, take_drop.
    + simpl in Hres. by rewrite bool_decide_eq_true_2 in Hres.
  - destruct (deliver_returns ev w) as (w' & Hrun).
    destruct (deliver_frame ev w w' fd Hsub Hrun) as [Hc Hw].
    exists w', b. split; [done|]. rewrite Hc. split; [done|].
    split; [done|]. split; [done|].
    unfold echoed. rewrite Hc, Hw.
    destruct ev as [fd' ok|fd' data|fd' n|fd' events err|signum]; simpl;
      rewrite ?app_nil_r; try done.
    rewrite bool_decide_eq_false_2; [by rewrite app_nil_r|].
    intros ->. by apply Hsub.
Qed.

End IsolationProofs.

(** *** Streams over one connection *)

Lemma received_app (fd : Z) (s1 s2 : schedule) :
  received fd (s1 ++ s2) = received fd s1 ++ received fd s2.
Proof.
  induction s1 as [|[t ev] s1 IH]; simpl; [done|].
  destruct ev; try done. case_bool_decide; [|done]. by rewrite IH, app_assoc.
Qed.

Section StreamProofs.
Context {T : Transport} {L : TransportLaws T}.

Lemma serve_all_app (s1 s2 : schedule) (w w1 : world) :
  serve_all s1 w = Some (tt, w1) →
  serve_all (s1 ++ s2) w = serve_all s2 w1.
Proof.
  revert w. induction s1 as [|[t ev] s1 IH]; intros w; simpl.
  - by intros [= ->].
  - destruct (deliver_returns ev (set_now t w)) as (w' & Hrun). intros Hs.
    erewrite bind_exec in Hs by reflexivity.
    erewrite bind_exec in Hs by exact Hrun.
    erewrite bind_exec by reflexivity.
    erewrite bind_exec by exact Hrun. by apply IH.
Qed.

(** While nothing ends the connection, what has been echoed grows by
    exactly what arrives, in order of arrival. *)
Lemma serve_all_echo (fd : Z) (sched : schedule) :
  ∀ (w : world) (b : bufferevent),
    conns w !! fd = Some b → accepted_bev b → bev_input b = [] →
    Forall (λ e, resets fd e.2 = false) sched →
    ∃ (w' : world) (b' : bufferevent),
      serve_all sched w = Some (tt, w')
      ∧ conns w' !! fd = Some b' ∧ accepted_bev b' ∧ bev_input b' = []
      ∧ echoed w' fd = echoed w fd ++ received fd sched.
Proof.
  induction sched as [|[t ev] sched IH]; intros w b Hb Hacc Hin Hres; simpl.
  - exists w, b. by rewrite app_nil_r.
  - apply Forall_cons in Hres as [Hres1 Hres]. simpl in Hres1.
    destruct (deliver_echo t ev (set_now t w) fd b Hb Hacc Hin Hres1)
      as (w1 & b1 & Hrun1 & Hb1 & Hacc1 & Hin1 & Hecho1).
    destruct (IH w1 b1 Hb1 Hacc1 Hin1 Hres)
      as (w2 & b2 & Hrun2 & Hb2 & Hacc2 & Hin2 & Hecho2).
    exists w2, b2. split.
    { erewrite bind_exec by reflexivity. by erewrite bind_exec by exact Hrun1. }
    split; [done|]. split; [done|]. split; [done|].
    rewrite Hecho2, Hecho1.
    change (echoed (set_now t w) fd) with (echoed w fd).
    rewrite <- app_assoc. f_equal.
    exact (eq_sym (received_app fd [(t, ev)] sched)).
Qed.

(** A write notification with room for the whole output buffer puts all
    that has been echoed on the wire. *)
Lemma flush_all (t : Z) (fd : Z) (n : nat) (w : world) (b : bufferevent) :
  conns w !! fd = Some b → accepted_bev b → (length (bev_output b) ≤ n)%nat →
  ∃ w' : world,
    serve_all [(t, Writable fd n)] w = Some (tt, w')
    ∧ wire w' !! fd = Some (echoed w fd).
Proof.
  intros Hb (Hopt & Hrd & Hwr & Hev & Hen) Hn.
  assert (∃ w', deliver (Writable fd n) (set_now t w) = Some (tt, w')
                ∧ wire w' !! fd = Some (echoed w fd)) as (w' & Hrun & Hwire).
  { unfold deliver. erewrite bind_exec by reflexivity. simpl. rewrite Hb, Hen. simpl.
    erewrite bind_exec by reflexivity. erewrite bind_exec by reflexivity.
    rewrite Hwr. simpl.
    erewrite conn_writecb_exec; [|simpl; apply lookup_insert_eq].
    eexists. split; [reflexivity|]. simpl. rewrite lookup_insert_eq.
    unfold echoed. rewrite Hb. simpl. by rewrite take_ge. }
  exists w'. split; [|done]. simpl.
  erewrite bind_exec by reflexivity. by erewrite bind_exec by exact Hrun.
Qed.

End StreamProofs.

(** *** Shutdown after an interrupt *)

Lemma grace_pos : 0 < grace.
Proof. reflexivity. Qed.

Section ShutdownProofs.
Context {T : Transport} {L : TransportLaws T}.

(** A schedule either has no failed bufferevent construction or has a
    first one. *)
Lemma first_failed_accept (l : schedule) :
  Forall (λ e, is_failed_accept e.2 = false) l
  ∨ ∃ (l1 : schedule) (t fd : Z) (l2 : schedule),
      l = l1 ++ (t, Accept fd false) :: l2
      ∧ Forall (λ e, is_failed_accept e.2 = false) l1.
Proof.
  induction l as [|[t ev] l IH]; [left; constructor|].
  destruct (is_failed_accept ev) eqn:Hev.
  - right. destruct ev as [fd [|]| | | |]; try discriminate Hev.
    exists [], t, fd, l. split; [done|constructor].
  - destruct IH as [IH|(l1 & t' & fd & l2 & -> & IH)].
    + left. by constructor.
    + right. exists ((t, ev) :: l1), t', fd, l2. split; [done|by constructor].
Qed.

(** From a state without exit timers: notifications up to the first
    interrupt, at [t0], and then within the grace period are all served,
    the timers then armed are not due before [t0 + grace], and the loop
    is ready for whatever comes next. *)
Lemma grace_serves (pre mid : schedule) (t0 : Z) (w : world) :
  armed w → event_break w = false → exit_timers w = [] →
  Forall (λ e, e.1 ≤ t0) pre →
  Forall (λ e, is_interrupt e.2 = false) pre →
  Forall (λ e, t0 ≤ e.1 < t0 + grace) mid →
  Forall (λ e, is_failed_accept e.2 = false) (pre ++ mid) →
  ∃ (w_run : world) (lines : list string),
    serve_all (pre ++ (t0, Signal SIGINT) :: mid) w = Some (tt, w_run)
    ∧ armed w_run
    ∧ exit_timers w_run = (t0 + grace) :: armed_by mid
    ∧ Forall (λ d, t0 + grace ≤ d) (exit_timers w_run)
    ∧ stdout w_run = stdout w ++ lines
    ∧ (("done" +:+ nl) ∉ lines)
    ∧ ∀ rest : schedule,
        event_base_dispatch (pre ++ (t0, Signal SIGINT) :: mid ++ rest) w
        = event_base_dispatch rest w_run.
Proof.
  intros Harmed Hbrk Htimers Hpre Hquiet Hmid Hacc.
  pose proof grace_pos as Hg.
  set (served := pre ++ (t0, Signal SIGINT) :: mid).
  assert (Harmed_by : armed_by served = (t0 + grace) :: armed_by mid).
  { unfold served. rewrite armed_by_app, (armed_by_quiet pre Hquiet). done. }
  assert (Hlate : Forall (λ d, t0 + grace ≤ d) (armed_by served)).
  { rewrite Harmed_by. constructor; [lia|]. apply armed_by_ge.
    eapply Forall_impl; [exact Hmid|]. simpl. intros; lia. }
  assert (Htimes : Forall (λ e, e.1 < t0 + grace) served).
  { unfold served. apply Forall_app. split.
    - eapply Forall_impl; [exact Hpre|]. simpl. intros; lia.
    - constructor; [simpl; lia|].
      eapply Forall_impl; [exact Hmid|]. simpl. intros; lia. }
  destruct (serve_all_effect served w Harmed)
    as (w_run & lines & Hrun & Harmed_run & Htimers_run & Hout & Hdone).
  rewrite Htimers in Htimers_run. simpl in Htimers_run.
  exists w_run, lines. split; [done|]. split; [done|].
  split; [by rewrite Htimers_run|]. split; [by rewrite Htimers_run|].
  split; [done|]. split; [done|]. intros rest.
  destruct (dispatch_runs served rest w Harmed Hbrk) as (w' & Hrun' & _ & Hloop).
  { apply Forall_app in Hacc as [Hacc1 Hacc2]. unfold served.
    apply Forall_app. split; [done|]. by constructor. }
  { rewrite Htimers. simpl. eapply Forall_impl; [exact Hlate|]. simpl.
    intros d Hd. eapply Forall_impl; [exact Htimes|]. simpl. intros; lia. }
  rewrite Hrun in Hrun'. injection Hrun' as <-.
  rewrite <- Hloop. unfold served. by rewrite <- app_assoc.
Qed.

Lemma before_window (t0 d : Z) (post : schedule) :
  Forall (λ e, t0 ≤ e.1) (before d post) →
  Forall (λ e, t0 ≤ e.1 < d) (before d post).
Proof.
  intros Hge. pose proof (before_lt d post) as Hlt.
  rewrite Forall_forall in Hge, Hlt. apply Forall_forall. intros e He.
  split; [by apply Hge|by apply Hlt].
Qed.

(** If moreover no bufferevent construction fails before [t0 + grace],
    the loop returns there, by its exit timer. *)
Lemma grace_run (pre post : schedule) (t0 : Z) (w : world) :
  armed w → event_break w = false → exit_timers w = [] →
  Forall (λ e, e.1 ≤ t0) pre →
  Forall (λ e, is_interrupt e.2 = false) pre →
  Forall (λ e, t0 ≤ e.1) (before (t0 + grace) post) →
  Forall (λ e, is_failed_accept e.2 = false) (pre ++ before (t0 + grace) post) →
  ∃ (w_run : world) (lines : list string),
    serve_all (pre ++ (t0, Signal SIGINT) :: before (t0 + grace) post) w
    = Some (tt, w_run)
    ∧ exit_timers w_run = (t0 + grace) :: armed_by (before (t0 + grace) post)
    ∧ stdout w_run = stdout w ++ lines
    ∧ (("done" +:+ nl) ∉ lines)
    ∧ event_base_dispatch (pre ++ (t0, Signal SIGINT) :: post) w
      = Some (Loopexit (t0 + grace), set_now (t0 + grace) w_run).
Proof.
  intros Harmed Hbrk Htimers Hpre Hquiet Hpost Hacc.
  destruct (grace_serves pre (before (t0 + grace) post) t0 w Harmed Hbrk Htimers
              Hpre Hquiet (before_window _ _ _ Hpost) Hacc)
    as (w_run & lines & Hrun & _ & Htimers_run & Hlate & Hout & Hdone & Hloop).
  destruct (before_split (t0 + grace) post) as (rest & Hsplit & Hrest).
  exists w_run, lines. split; [done|]. split; [done|]. split; [done|].
  split; [done|]. rewrite Hsplit at 1. rewrite Hloop.
  apply dispatch_exits; [|done].
  apply earliest_spec. split; [|done]. rewrite Htimers_run. left.
Qed.

(** If a bufferevent construction fails within the grace period, the
    loop returns at that moment instead, by the break. *)
Lemma grace_break (pre mid rest : schedule) (t0 t fd : Z) (w : world) :
  armed w → event_break w = false → exit_timers w = [] →
  Forall (λ e, e.1 ≤ t0) pre →
  Forall (λ e, is_interrupt e.2 = false) pre →
  Forall (λ e, t0 ≤ e.1 < t0 + grace) mid →
  Forall (λ e, is_failed_accept e.2 = false) (pre ++ mid) →
  t < t0 + grace →
  ∃ (w_run : world) (lines : list string),
    serve_all (pre ++ (t0, Signal SIGINT) :: mid) w = Some (tt, w_run)
    ∧ stdout w_run = stdout w ++ lines
    ∧ (("done" +:+ nl) ∉ lines)
    ∧ event_base_dispatch
        (pre ++ (t0, Signal SIGINT) :: mid ++ (t, Accept fd false) :: rest) w
      = Some (Loopbreak,
              set_event_break true
                (set_stderr (stderr w_run ++ ["Error constructing bufferevent!"])
                   (set_now t w_run))).
Proof.
  intros Harmed Hbrk Htimers Hpre Hquiet Hmid Hacc Ht.
  destruct (grace_serves pre mid t0 w Harmed Hbrk Htimers Hpre Hquiet Hmid Hacc)
    as (w_run & lines & Hrun & Harmed_run & _ & Hlate & Hout & Hdone & Hloop).
  exists w_run, lines. split; [done|]. split; [done|]. split; [done|].
  rewrite Hloop. apply dispatch_breaks; [done|].
  apply due_none. eapply Forall_impl; [exact Hlate|]. simpl. intros; lia.
Qed.

End ShutdownProofs.

(** After a loop that printed no completion message, the teardown of
    [main] prints the first and only one. *)
Lemma completions_once (w : world) (lines : list string) :
  stdout w = stdout ready_world ++ lines →
  ("done" +:+ nl) ∉ lines →
  completions (teardown w) = 1%nat.
Proof.
  intros Hout Hdone.
  assert (Hnone : count_occ string_dec lines ("done" +:+ nl) = 0%nat).
  { apply count_occ_not_In. by rewrite <- list_elem_of_In. }
  unfold completions, teardown. simpl. rewrite Hout, !count_occ_app, Hnone.
  reflexivity.
Qed.

(** ** The properties of the specification *)

Section Claims.
Context {T : Transport} {L : TransportLaws T}.

(** C1.  Echo.  When [conn_readcb] runs on a live connection it returns,
    the input buffer is then empty and its bytes stand, unchanged and in
    order, behind what the output buffer already held; no other connection
    and no byte on any wire is touched.  Consequently, for a connection
    fresh from [listener_cb], whatever notifications are served (for this
    socket or others) short of one that ends or replaces the connection,
    once the socket has taken the whole output buffer the peer has been
    sent exactly the bytes that arrived from it, in order of arrival. *)
Theorem echo_in_order :
  (∀ (w : world) (bev : Z) (b : bufferevent),
     conns w !! bev = Some b →
     ∃ w' : world,
       conn_readcb bev w = Some (tt, w')
       ∧ conns w' !! bev = Some (drained b)
       ∧ bev_input (drained b) = []
       ∧ bev_output (drained b) = bev_output b ++ bev_input b
       ∧ (∀ fd : Z, fd ≠ bev → conns w' !! fd = conns w !! fd)
       ∧ wire w' = wire w)
  ∧ (∀ (w : world) (fd : Z) (sched : schedule) (t : Z) (n : nat),
       conns w !! fd = Some fresh_bev →
       wire w !! fd = None →
       Forall (λ e, resets fd e.2 = false) sched →
       (length (received fd sched) ≤ n)%nat →
       ∃ w' : world,
         serve_all (sched ++ [(t, Writable fd n)]) w = Some (tt, w')
         ∧ wire w' !! fd = Some (received fd sched)).
Proof.
  split.
  - intros w bev b Hb. eexists. split; [by apply conn_readcb_exec|].
    simpl. rewrite lookup_insert_eq. repeat split.
    intros fd Hfd. by rewrite lookup_insert_ne.
  - intros w fd sched t n Hb Hwire Hres Hn.
    assert (Hacc : accepted_bev fresh_bev) by by repeat split.
    destruct (serve_all_echo fd sched w fresh_bev Hb Hacc eq_refl Hres)
      as (w1 & b1 & Hrun1 & Hb1 & Hacc1 & Hin1 & Hecho1).
    assert (Hstart : echoed w fd = []) by (unfold echoed; by rewrite Hb, Hwire).
    rewrite Hstart in Hecho1. simpl in Hecho1.
    destruct (flush_all t fd n w1 b1 Hb1 Hacc1) as (w2 & Hrun2 & Hwire2).
    { rewrite <- Hecho1 in Hn. unfold echoed in Hn. rewrite Hb1 in Hn. simpl in Hn.
      rewrite length_app in Hn. lia. }
    exists w2. rewrite (serve_all_app sched _ w w1 Hrun1). split; [done|].
    by rewrite Hwire2, Hecho1.
Qed.

(** C2.  The drain loop of [conn_readcb] terminates from every state of
    the input buffer: with more passes allowed than there are bytes it
    returns.  Each pass asks for the length [inputs] it has just read and
    moves [writes] bytes with [0 <= writes <= inputs]; while there is
    something to move every pass moves at least one byte; there is at
    least one pass and at most as many as there were bytes (one for an
    empty buffer); and on exit the bytes moved add up to the bytes that
    were available, the input is empty and the output has gained them. *)
Theorem drain_terminates (evbuf_in evbuf_out : evbuffer) (fuel : nat) :
  (length evbuf_in < fuel)%nat →
  ∃ log : list (Z * Z),
    conn_readcb_loop fuel evbuf_in evbuf_out []
    = Some ([], evbuf_out ++ evbuf_in, log)
    ∧ sumZ (map snd log) = evbuffer_get_length evbuf_in
    ∧ Forall (λ p, 0 ≤ p.2 ≤ p.1 ∧ p.1 ≤ evbuffer_get_length evbuf_in) log
    ∧ (evbuf_in ≠ [] → Forall (λ p, 0 < p.2) log)
    ∧ (1 ≤ length log ≤ Nat.max 1 (length evbuf_in))%nat.
Proof. intros Hfuel. exact (conn_readcb_loop_spec fuel evbuf_in evbuf_out [] Hfuel). Qed.

(** C7.  With an empty input buffer the drain is a no-op on the buffers:
    the loop makes one pass that asks for zero bytes and moves zero bytes,
    and any number of invocations of [conn_readcb] in a row leaves the
    whole state as it was except for the line printed by each call; in
    particular the bufferevent, both its buffers and the wire are the
    same. *)
Theorem empty_drain_noop (w : world) (bev : Z) (b : bufferevent) (n : nat) :
  conns w !! bev = Some b →
  bev_input b = [] →
  conn_readcb_loop 1 (bev_input b) (bev_output b) []
  = Some ([], bev_output b, [(0, 0)])
  ∧ ∃ w' : world,
      exec (repeat_m n (conn_readcb bev)) w = Some w'
      ∧ w' = set_stdout (stdout w ++ replicate n ("Received" +:+ nl)) w
      ∧ conns w' !! bev = Some b
      ∧ conns w' = conns w
      ∧ wire w' = wire w.
Proof.
  intros Hb Hin. split.
  - rewrite Hin. simpl.
    destruct (remove_buffer_moves [] (bev_output b) 0)
      as (moved & rest & Hsplit & Hmove & Hle & _); [done|].
    symmetry in Hsplit. apply app_eq_nil in Hsplit as [-> ->].
    change (evbuffer_get_length []) with 0. rewrite Hmove. simpl.
    by rewrite app_nil_r.
  - exists (set_stdout (stdout w ++ replicate n ("Received" +:+ nl)) w).
    split; [|by repeat split].
    revert w Hb.
    induction n as [|n IH]; intros w Hb; simpl.
    + unfold exec. simpl. rewrite app_nil_r. by destruct w.
    + unfold exec. erewrite bind_exec by (by eapply conn_readcb_empty).
      specialize (IH (set_stdout (stdout w ++ ["Received" +:+ nl]) w) Hb).
      unfold exec in IH. rewrite IH. simpl.
      by rewrite <- app_assoc.
Qed.

End Claims.

Section EventClaims.
Context {T : Transport} {L : TransportLaws T}.

(** C3.  When [conn_eventcb] is invoked on a connection set up by
    [listener_cb] with a mask that holds a terminating condition
    (read error, write error, end of file or unrecoverable error), it
    returns with the connection [CLOSED]: the bufferevent with both buffers
    is gone and its socket is closed, in the same step.  Nothing is retried
    and nothing else moves: every other connection, the listener, the
    signal registration, the wires, the exit timers and the break flag are
    as before. *)
Theorem terminating_event_closes (w : world) (bev : Z) (b : bufferevent)
    (events : Z) (err : string) :
  conns w !! bev = Some b →
  accepted_bev b →
  Z.land events terminating_mask ≠ 0 →
  ∃ w' : world,
    conn_eventcb bev events err w = Some (tt, w')
    ∧ state_of w bev = ACTIVE
    ∧ state_of w' bev = CLOSED
    ∧ bev ∈ closed_fds w'
    ∧ (∀ fd : Z, fd ≠ bev → conns w' !! fd = conns w !! fd)
    ∧ (∀ fd : Z, fd ≠ bev → fd ∈ closed_fds w' ↔ fd ∈ closed_fds w)
    ∧ listener w' = listener w
    ∧ signal_event w' = signal_event w
    ∧ wire w' = wire w
    ∧ exit_timers w' = exit_timers w
    ∧ event_break w' = event_break w.
Proof.
  intros Hb (Hopt & _) _. eexists. split; [by apply conn_eventcb_exec|].
  unfold released, state_of. rewrite Hopt, Hb. simpl.
  rewrite lookup_delete_eq.
  split; [done|]. split; [done|].
  split; [by apply elem_of_union_l, elem_of_singleton|].
  split; [intros fd Hfd; by rewrite lookup_delete_ne|].
  split; [|by repeat split].
  intros fd Hfd. rewrite elem_of_union, elem_of_singleton. tauto.
Qed.

(** C9.  Every invocation of [conn_eventcb] on a live connection frees
    it, whatever the mask: for every value of [events] the call returns
    and the connection is [CLOSED] afterwards.  This includes the masks
    without any terminating condition: the empty mask, [connected] alone
    and [timeout] alone. *)
Theorem any_event_closes (w : world) (bev : Z) (b : bufferevent)
    (events : Z) (err : string) :
  conns w !! bev = Some b →
  (∃ w' : world,
     conn_eventcb bev events err w = Some (tt, w')
     ∧ state_of w' bev = CLOSED
     ∧ conns w' = delete bev (conns w))
  ∧ Z.land 0 terminating_mask = 0
  ∧ Z.land BEV_EVENT_CONNECTED terminating_mask = 0
  ∧ Z.land BEV_EVENT_TIMEOUT terminating_mask = 0.
Proof.
  intros Hb. split; [|done]. eexists. split; [by apply conn_eventcb_exec|].
  unfold released, state_of. destruct (c_true _); simpl;
    by rewrite lookup_delete_eq.
Qed.

(** C6.  A failure to construct the bufferevent in [listener_cb] is not
    passed over: the callback writes a diagnostic and asks the loop to
    break, without registering anything for the socket.  A running loop
    returns at once when this happens, whatever notifications were still to
    come; from startup, [main] then runs to its end: the whole server
    stops.  An event on a connection, by contrast, leaves the break flag
    alone and the loop goes on with the next notification. *)
Theorem failed_accept_stops_server :
  (∀ (w : world) (fd : Z),
     ∃ w' : world,
       listener_cb fd false w = Some (tt, w')
       ∧ event_break w' = true
       ∧ stderr w' = stderr w ++ ["Error constructing bufferevent!"]
       ∧ conns w' = conns w)
  ∧ (∀ (w : world) (t fd : Z) (rest : schedule),
       armed w → due (exit_timers w) t = None →
       event_base_dispatch ((t, Accept fd false) :: rest) w
       = Some (Loopbreak,
               set_event_break true
                 (set_stderr (stderr w ++ ["Error constructing bufferevent!"])
                    (set_now t w))))
  ∧ (∀ (env : startup_env) (pre rest : schedule) (t fd : Z),
       startup_ok env = true →
       Forall (λ e, is_interrupt e.2 = false) pre →
       Forall (λ e, is_failed_accept e.2 = false) pre →
       ∃ w_run : world,
         serve_all pre ready_world = Some (tt, w_run)
         ∧ event_base_dispatch (pre ++ (t, Accept fd false) :: rest) ready_world
           = Some (Loopbreak,
                   set_event_break true
                     (set_stderr (stderr w_run ++ ["Error constructing bufferevent!"])
                        (set_now t w_run)))
         ∧ ∃ w_end : world,
             main env (pre ++ (t, Accept fd false) :: rest) init_world
             = Some (0, w_end))
  ∧ (∀ (w : world) (t fd events : Z) (err : string) (rest : schedule),
       armed w → event_break w = false → due (exit_timers w) t = None →
       ∃ w' : world,
         deliver (ConnEvent fd events err) (set_now t w) = Some (tt, w')
         ∧ event_break w' = false
         ∧ event_base_dispatch ((t, ConnEvent fd events err) :: rest) w
           = event_base_dispatch rest w').
Proof.
  split; [|split; [|split]].
  - intros w fd. eexists. split; [apply listener_cb_exec_fail|]. by repeat split.
  - intros w t fd rest Harmed Hdue. by apply dispatch_breaks.
  - intros env pre rest t fd Hok Hquiet Hacc.
    assert (Harmed : armed ready_world) by (split; [done|by eexists]).
    destruct (dispatch_runs pre ((t, Accept fd false) :: rest) ready_world Harmed
                eq_refl Hacc) as (w_run & Hrun & _ & Hloop).
    { simpl. rewrite (armed_by_quiet pre Hquiet). constructor. }
    destruct (serve_all_effect pre ready_world Harmed)
      as (w_run' & lines & Hrun' & Harmed' & Htimers & _).
    rewrite Hrun in Hrun'. injection Hrun' as <-.
    rewrite (armed_by_quiet pre Hquiet) in Htimers. simpl in Htimers.
    assert (Hbreak := dispatch_breaks t fd rest w_run Harmed').
    rewrite Htimers in Hbreak. specialize (Hbreak eq_refl).
    exists w_run. split; [done|]. rewrite Hloop. split; [done|].
    rewrite (main_startup_ok env _ Hok), Hloop, Hbreak. by eexists.
  - intros w t fd events err rest Harmed Hbrk Hdue.
    destruct (deliver_effect (ConnEvent fd events err) (set_now t w)
                (armed_set_now t w Harmed))
      as (w' & lines & Hrun & _ & _ & _ & Hbrk' & _).
    simpl in Hbrk'. rewrite Hbrk in Hbrk'. simpl in Hbrk'.
    exists w'. split; [done|]. split; [done|]. simpl.
    erewrite bind_exec by reflexivity. rewrite Hdue.
    erewrite bind_exec by reflexivity. erewrite bind_exec by exact Hrun.
    erewrite bind_exec by reflexivity. by rewrite Hbrk'.
Qed.

End EventClaims.

Section ServerClaims.
Context {T : Transport} {L : TransportLaws T}.

(** C4.  Exit status of [main].  If the event base, the listener or the
    signal event cannot be set up (creation fails, or [event_add] returns
    a negative value), [main] returns 1 having printed one diagnostic on
    the error stream and nothing else; the loop is never entered, so no
    notification of the schedule is looked at and no connection exists.
    If startup succeeds and the event loop returns, [main] tears down and
    returns 0. *)
Theorem exit_status (env : startup_env) (sched : schedule) :
  (startup_ok env = false
   ↔ base_new_ok env = false ∨ listener_bind_ok env = false
     ∨ evsignal_new_ok env = false ∨ event_add_result env < 0)
  ∧ (startup_ok env = false →
     ∃ (w : world) (diagnostic : string),
       main env sched init_world = Some (1, w)
       ∧ main env sched init_world = main env [] init_world
       ∧ conns w = ∅ ∧ wire w = ∅ ∧ closed_fds w = ∅
       ∧ stdout w = [] ∧ stderr w = [diagnostic])
  ∧ (startup_ok env = true →
     ∀ (r : loop_exit) (w : world),
       event_base_dispatch sched ready_world = Some (r, w) →
       main env sched init_world = Some (0, teardown w)).
Proof.
  split; [apply startup_ok_false|]. split.
  - intros Hfail.
    destruct (main_startup_fails env sched Hfail) as (w & d & Hmain & Hrest).
    exists w, d. split; [done|]. split; [|done].
    by apply main_startup_fails_any.
  - intros Hok r w Hloop. by rewrite (main_startup_ok env sched Hok), Hloop.
Qed.

(** C5.  Shutdown after the first interrupt.  Let the first interrupt of a
    schedule be delivered at time [t0].  [signal_cb] arms the exit of the
    loop [grace] later, and [grace] is 2 seconds.  The loop returns no
    earlier than [t0] and no later than [t0 + grace]; [main] then returns
    0 and the completion message has been printed exactly once.  Unless a
    bufferevent construction fails in between (which breaks the loop on
    the spot), the loop serves every notification that arrives before
    [t0 + grace], for old and new connections alike, exactly as if no exit
    had been requested, and returns at [t0 + grace]. *)
Theorem grace_period_shutdown (env : startup_env) (pre post : schedule) (t0 : Z) :
  startup_ok env = true →
  Forall (λ e, e.1 ≤ t0) pre →
  Forall (λ e, is_interrupt e.2 = false) pre →
  Forall (λ e, is_failed_accept e.2 = false) pre →
  Forall (λ e, t0 ≤ e.1) (before (t0 + grace) post) →
  grace = 2 * 1000000
  ∧ (∃ (r : loop_exit) (w_loop : world),
       event_base_dispatch (pre ++ (t0, Signal SIGINT) :: post) ready_world
       = Some (r, w_loop)
       ∧ (r = Loopexit (t0 + grace) ∨ r = Loopbreak)
       ∧ t0 ≤ now w_loop ≤ t0 + grace
       ∧ main env (pre ++ (t0, Signal SIGINT) :: post) init_world
         = Some (0, teardown w_loop)
       ∧ completions (teardown w_loop) = 1%nat)
  ∧ (Forall (λ e, is_failed_accept e.2 = false) (before (t0 + grace) post) →
     ∃ w_run : world,
       serve_all (pre ++ (t0, Signal SIGINT) :: before (t0 + grace) post) ready_world
       = Some (tt, w_run)
       ∧ event_base_dispatch (pre ++ (t0, Signal SIGINT) :: post) ready_world
         = Some (Loopexit (t0 + grace), set_now (t0 + grace) w_run)).
Proof.
  intros Hok Hpre Hquiet Hacc Hpost. split; [done|].
  pose proof grace_pos as Hg.
  assert (Harmed : armed ready_world) by (split; [done|by eexists]).
  split.
  - destruct (first_failed_accept (before (t0 + grace) post))
      as [Hmid|(mid & t & fd & mid' & Hsplit & Hmid)].
    + destruct (grace_run pre post t0 ready_world Harmed eq_refl eq_refl
                  Hpre Hquiet Hpost)
        as (w_run & lines & Hrun & _ & Hout & Hdone & Hloop);
        [by apply Forall_app|].
      exists (Loopexit (t0 + grace)), (set_now (t0 + grace) w_run).
      split; [done|]. split; [by left|]. split; [simpl; lia|].
      split; [by rewrite (main_startup_ok env _ Hok), Hloop|].
      by apply (completions_once _ lines).
    + destruct (before_split (t0 + grace) post) as (rest & Hpost_split & _).
      pose proof (before_window _ _ _ Hpost) as Hwin. rewrite Hsplit in Hwin.
      apply Forall_app in Hwin as [Hwin1 Hwin2].
      apply Forall_cons in Hwin2 as [Ht _]. simpl in Ht.
      destruct (grace_break pre mid (mid' ++ rest) t0 t fd ready_world Harmed
                  eq_refl eq_refl Hpre Hquiet Hwin1)
        as (w_run & lines & Hrun & Hout & Hdone & Hloop);
        [by apply Forall_app|lia|].
      assert (Hsched : pre ++ (t0, Signal SIGINT) :: post
                       = pre ++ (t0, Signal SIGINT) :: mid
                             ++ (t, Accept fd false) :: mid' ++ rest).
      { rewrite Hpost_split at 1. rewrite Hsplit. by rewrite <- app_assoc. }
      rewrite Hsched.
      eexists Loopbreak, _. split; [exact Hloop|]. split; [by right|].
      split; [simpl; lia|].
      split; [by rewrite (main_startup_ok env _ Hok), Hloop|].
      by apply (completions_once _ lines).
  - intros Hmid.
    destruct (grace_run pre post t0 ready_world Harmed eq_refl eq_refl
                Hpre Hquiet Hpost)
      as (w_run & lines & Hrun & _ & _ & _ & Hloop); [by apply Forall_app|].
    by exists w_run.
Qed.

(** C8.  The listener.  [main] registers, by its one call of
    [evconnlistener_new_bind], a listener on the IPv4 wildcard address and
    port 9995 (octets 0x27 0x0B in network order), with
    [LEV_OPT_REUSEABLE] (address reuse), with backlog -1, by which the
    program names no bound for the accept queue, and with [listener_cb] as
    its callback.  This listener is in place in the state in which [main]
    enters the event loop, whatever the loop then does, and it is the one
    [main] leaves behind when the signal event cannot be set up.  That the
    socket is a stream socket is the library's doing.  For every accepted
    socket whose bufferevent can be allocated, however many connections
    there are already, [listener_cb] leaves a new bufferevent with empty
    buffers, [conn_readcb], [conn_writecb] and [conn_eventcb] registered,
    and reading and writing enabled; the other connections stay as they
    are. *)
Theorem listener_setup :
  (∀ (env : startup_env) (sched : schedule),
     main env sched = main_with (event_base_dispatch sched) env)
  ∧ (∀ (loop : M loop_exit) (env : startup_env),
       startup_ok env = true →
       ∃ (w0 : world) (l : evconnlistener),
         main_with loop env init_world
         = match loop w0 with
           | Some (_, w) => Some (0, teardown w)
           | None => None
           end
         ∧ conns w0 = ∅
         ∧ listener w0 = Some l
         ∧ lev_cb l = Listener_cb
         ∧ sin_family (lev_addr l) = AF_INET
         ∧ sin_addr (lev_addr l) = INADDR_ANY
         ∧ sin_port (lev_addr l) = [0x27; 0x0B]
         ∧ 0x27 * 256 + 0x0B = 9995
         ∧ c_true (Z.land (lev_flags l) LEV_OPT_REUSEABLE) = true
         ∧ lev_backlog l = -1)
  ∧ (∀ (env : startup_env) (sched : schedule),
       base_new_ok env = true → listener_bind_ok env = true →
       evsignal_new_ok env = false ∨ event_add_result env < 0 →
       ∃ (w : world) (l : evconnlistener),
         main env sched init_world = Some (1, w)
         ∧ listener w = Some l
         ∧ lev_cb l = Listener_cb
         ∧ sin_family (lev_addr l) = AF_INET
         ∧ sin_addr (lev_addr l) = INADDR_ANY
         ∧ sin_port (lev_addr l) = [0x27; 0x0B]
         ∧ c_true (Z.land (lev_flags l) LEV_OPT_REUSEABLE) = true
         ∧ lev_backlog l = -1)
  ∧ (∀ (w : world) (fd : Z),
       armed w →
       ∃ (w' : world) (b : bufferevent),
         deliver (Accept fd true) w = Some (tt, w')
         ∧ listener_cb fd true w = Some (tt, w')
         ∧ conns w' !! fd = Some b
         ∧ state_of w' fd = ACTIVE
         ∧ bev_input b = [] ∧ bev_output b = []
         ∧ bev_readcb b = Some Conn_readcb
         ∧ bev_writecb b = Some Conn_writecb
         ∧ bev_eventcb b = Some Conn_eventcb
         ∧ c_true (Z.land (bev_enabled b) EV_READ) = true
         ∧ c_true (Z.land (bev_enabled b) EV_WRITE) = true
         ∧ (∀ fd' : Z, fd' ≠ fd → conns w' !! fd' = conns w !! fd')).
Proof.
  split; [reflexivity|]. split; [|split].
  - intros loop env Hok. eexists ready_world, _.
    split; [by apply main_with_startup_ok|]. split; [done|].
    split; [reflexivity|]. by repeat split.
  - intros [b l s r] sched. simpl. intros -> -> Hsig.
    unfold main, event_base_new, evconnlistener_new_bind, evsignal_new, event_add.
    munfold. simpl. destruct s; simpl.
    + destruct Hsig as [Hsig|Hsig]; [done|].
      apply Z.ltb_lt in Hsig. rewrite Hsig. simpl.
      eexists _, _. split; [reflexivity|]. simpl. split; [reflexivity|].
      by repeat split.
    + eexists _, _. split; [reflexivity|]. simpl. split; [reflexivity|].
      by repeat split.
  - intros w fd [_ [l Hl]]. eexists _, fresh_bev.
    split.
    { unfold deliver. erewrite bind_exec by reflexivity. simpl. rewrite Hl.
      destruct l as [[] ? ? ?]. simpl. apply listener_cb_exec_ok. }
    split; [apply listener_cb_exec_ok|]. unfold state_of. simpl.
    rewrite lookup_insert_eq. repeat split.
    intros fd' Hfd'. by rewrite lookup_insert_ne.
Qed.

(** C10, as amended.  Every occurrence of the interrupt, not only the
    first, makes [signal_cb] arm one more exit timer, due [grace] (2
    seconds) after that occurrence; the timers armed before stay as they
    are.  So with the first interrupt at [t0] and later ones during the
    grace period, the armed deadlines are exactly one per interrupt served,
    and the loop still returns at [t0 + grace]: a later interrupt is not
    ignored by the handler, and it neither shortens nor moves the exit. *)
Theorem every_interrupt_arms_timer (pre post : schedule) (t0 : Z) :
  Forall (λ e, e.1 ≤ t0) pre →
  Forall (λ e, is_interrupt e.2 = false) pre →
  Forall (λ e, t0 ≤ e.1) (before (t0 + grace) post) →
  Forall (λ e, is_failed_accept e.2 = false) (pre ++ before (t0 + grace) post) →
  (∀ w : world,
     ∃ w' : world,
       signal_cb w = Some (tt, w')
       ∧ exit_timers w' = exit_timers w ++ [now w + grace])
  ∧ ∃ w_run : world,
      serve_all (pre ++ (t0, Signal SIGINT) :: before (t0 + grace) post) ready_world
      = Some (tt, w_run)
      ∧ exit_timers w_run
        = (t0 + grace) :: armed_by (before (t0 + grace) post)
      ∧ event_base_dispatch (pre ++ (t0, Signal SIGINT) :: post) ready_world
        = Some (Loopexit (t0 + grace), set_now (t0 + grace) w_run).
Proof.
  intros Hpre Hquiet Hpost Hacc. split.
  - intros w. eexists. split; [apply signal_cb_exec|done].
  - assert (Harmed : armed ready_world) by (split; [done|by eexists]).
    destruct (grace_run pre post t0 ready_world Harmed eq_refl eq_refl
                Hpre Hquiet Hpost Hacc)
      as (w_run & lines & Hrun & Htimers & _ & _ & Hloop).
    exists w_run. by repeat split.
Qed.

End ServerClaims.

(** ** The statements at work on concrete runs *)

Lemma echo_in_order_witness :
  (∃ w' : world,
     conn_readcb (T:=spec_transport) 7 sample_world = Some (tt, w')
     ∧ conns w' !! 7 = Some (drained sample_bev)
     ∧ bev_output (drained sample_bev) = [x3e; x68; x69]%byte)
  ∧ (∃ w' : world,
       serve_all (T:=spec_transport)
         (sample_stream ++ [(5, Writable 7 2%nat)]) fresh_world
       = Some (tt, w')
       ∧ wire w' !! 7 = Some [x68; x69]%byte).
Proof.
  destruct (@echo_in_order spec_transport spec_transport_laws) as [Hcb Hstream].
  split.
  - destruct (Hcb sample_world 7 sample_bev eq_refl) as (w' & H1 & H2 & _ & H3 & _).
    exists w'. split; [exact H1|]. split; [exact H2|exact H3].
  - apply (Hstream fresh_world 7 sample_stream 5 2%nat).
    + reflexivity.
    + reflexivity.
    + repeat constructor.
    + simpl. lia.
Defined.

Lemma drain_terminates_witness :
  ∃ log : list (Z * Z),
    conn_readcb_loop (T:=trickle_transport) 4 [x68; x69; x21]%byte [x3e]%byte []
    = Some ([], [x3e]%byte ++ [x68; x69; x21]%byte, log)
    ∧ sumZ (map snd log) = evbuffer_get_length [x68; x69; x21]%byte
    ∧ Forall (λ p, 0 ≤ p.2 ≤ p.1
                   ∧ p.1 ≤ evbuffer_get_length [x68; x69; x21]%byte) log
    ∧ ([x68; x69; x21]%byte ≠ [] → Forall (λ p, 0 < p.2) log)
    ∧ (1 ≤ length log ≤ Nat.max 1 (length [x68; x69; x21]%byte))%nat.
Proof.
  apply (@drain_terminates trickle_transport trickle_transport_laws). simpl. lia.
Defined.

Lemma terminating_event_closes_witness :
  ∃ w' : world,
    conn_eventcb 7 (Z.lor BEV_EVENT_EOF BEV_EVENT_READING) "" sample_world
    = Some (tt, w')
    ∧ state_of sample_world 7 = ACTIVE
    ∧ state_of w' 7 = CLOSED
    ∧ 7 ∈ closed_fds w'.
Proof.
  destruct (terminating_event_closes sample_world 7 sample_bev
              (Z.lor BEV_EVENT_EOF BEV_EVENT_READING) "")
    as (w' & H1 & H2 & H3 & H4 & _).
  - reflexivity.
  - repeat split.
  - discriminate.
  - exists w'. repeat split; assumption.
Defined.

Lemma exit_status_witness :
  (∃ w : world,
     main (T:=spec_transport) (Startup_env true false true 0) sample_pre init_world
     = Some (1, w) ∧ conns w = ∅)
  ∧ ∃ w : world,
      main (T:=spec_transport) good_env two_interrupts init_world = Some (0, w).
Proof.
  split.
  - destruct (exit_status (T:=spec_transport) (Startup_env true false true 0)
                sample_pre) as (_ & Hfail & _).
    destruct (Hfail eq_refl) as (w & d & Hmain & _ & Hconns & _).
    exists w. split; assumption.
  - destruct (exit_status (T:=spec_transport) good_env two_interrupts)
      as (_ & _ & Hok).
    eexists. apply (Hok eq_refl (Loopexit 2000000)). vm_compute. reflexivity.
Defined.

Lemma grace_period_shutdown_witness :
  (∃ w_loop : world,
     main (T:=spec_transport) good_env
       (sample_pre ++ (30, Signal SIGINT) :: sample_post) init_world
     = Some (0, teardown w_loop)
     ∧ completions (teardown w_loop) = 1%nat)
  ∧ ∃ w_run : world,
      event_base_dispatch (T:=spec_transport)
        (sample_pre ++ (30, Signal SIGINT) :: sample_post) ready_world
      = Some (Loopexit 2000030, set_now 2000030 w_run).
Proof.
  destruct (@grace_period_shutdown spec_transport spec_transport_laws good_env
              sample_pre sample_post 30)
    as (_ & (r & w_loop & _ & _ & _ & Hmain & Hdone) & Hserved).
  - reflexivity.
  - repeat constructor; simpl; lia.
  - repeat constructor.
  - repeat constructor.
  - repeat constructor; simpl; lia.
  - split.
    + exists w_loop. split; [exact Hmain|exact Hdone].
    + destruct Hserved as (w_run & _ & Hloop); [repeat constructor|].
      exists w_run. exact Hloop.
Defined.

Lemma failed_accept_stops_server_witness :
  ∃ w_end : world,
    main (T:=spec_transport) good_env
      (sample_pre ++ (20, Accept 6 false) :: sample_post) init_world
    = Some (0, w_end).
Proof.
  destruct (@failed_accept_stops_server spec_transport spec_transport_laws)
    as (_ & _ & Hstop & _).
  destruct (Hstop good_env sample_pre sample_post 20 6) as (w_run & _ & _ & Hmain).
  - reflexivity.
  - repeat constructor.
  - repeat constructor.
  - exact Hmain.
Defined.

Lemma empty_drain_noop_witness :
  conn_readcb_loop (T:=spec_transport) 1 (bev_input idle_bev) (bev_output idle_bev) []
  = Some ([], bev_output idle_bev, [(0, 0)])
  ∧ ∃ w' : world,
      exec (repeat_m 3 (conn_readcb (T:=spec_transport) 7)) idle_world = Some w'
      ∧ conns w' = conns idle_world
      ∧ wire w' = wire idle_world.
Proof.
  destruct (@empty_drain_noop spec_transport spec_transport_laws idle_world 7
              idle_bev 3) as (Hloop & w' & Hrun & _ & _ & Hconns & Hwire).
  - reflexivity.
  - reflexivity.
  - split; [exact Hloop|]. exists w'. split; [exact Hrun|].
    split; [exact Hconns|exact Hwire].
Defined.

Lemma listener_setup_witness :
  (∃ (w : world) (l : evconnlistener),
     main (T:=spec_transport) (Startup_env true true false 0) sample_pre init_world
     = Some (1, w)
     ∧ listener w = Some l
     ∧ sin_port (lev_addr l) = [0x27; 0x0B]
     ∧ lev_backlog l = -1)
  ∧ ∃ (w' : world) (b : bufferevent),
      deliver (T:=spec_transport) (Accept 5 true) ready_world = Some (tt, w')
      ∧ conns w' !! 5 = Some b
      ∧ bev_readcb b = Some Conn_readcb
      ∧ bev_writecb b = Some Conn_writecb
      ∧ bev_eventcb b = Some Conn_eventcb.
Proof.
  destruct (listener_setup (T:=spec_transport)) as (_ & _ & Hlistener & Haccept).
  split.
  - destruct (Hlistener (Startup_env true true false 0) sample_pre)
      as (w & l & H1 & H2 & _ & _ & _ & H3 & _ & H4).
    + reflexivity.
    + reflexivity.
    + left. reflexivity.
    + exists w, l. repeat split; assumption.
  - destruct (Haccept ready_world 5)
      as (w' & b & H1 & _ & H2 & _ & _ & _ & H3 & H4 & H5 & _).
    + split; [reflexivity|]. eexists. reflexivity.
    + exists w', b. repeat split; assumption.
Defined.

Lemma any_event_closes_witness :
  (∃ w' : world,
     conn_eventcb 7 0 "" sample_world = Some (tt, w') ∧ state_of w' 7 = CLOSED)
  ∧ (∃ w' : world,
       conn_eventcb 7 BEV_EVENT_TIMEOUT "" sample_world = Some (tt, w')
       ∧ state_of w' 7 = CLOSED)
  ∧ ∃ w' : world,
      conn_eventcb 7 BEV_EVENT_CONNECTED "" sample_world = Some (tt, w')
      ∧ state_of w' 7 = CLOSED.
Proof.
  split; [|split].
  - destruct (any_event_closes sample_world 7 sample_bev 0 "" eq_refl)
      as ((w' & H1 & H2 & _) & _).
    exists w'. split; assumption.
  - destruct (any_event_closes sample_world 7 sample_bev BEV_EVENT_TIMEOUT "" eq_refl)
      as ((w' & H1 & H2 & _) & _).
    exists w'. split; assumption.
  - destruct (any_event_closes sample_world 7 sample_bev BEV_EVENT_CONNECTED "" eq_refl)
      as ((w' & H1 & H2 & _) & _).
    exists w'. split; assumption.
Defined.

(** C10, as stated, fails.  With interrupts at 0 s and at 1 s the loop
    returns at 2 s, two seconds after the first one, and the connection
    that arrives at 2.5 s is not served; it does not return at 3 s, two
    seconds after the second one. *)
Lemma second_interrupt_not_rescheduled :
  (∃ w : world,
     event_base_dispatch (T:=spec_transport) two_interrupts ready_world
     = Some (Loopexit (0 + grace), w)
     ∧ exit_timers w = [0 + grace; 1000000 + grace]
     ∧ conns w = ∅)
  ∧ ¬ (∃ w : world,
         event_base_dispatch (T:=spec_transport) two_interrupts ready_world
         = Some (Loopexit (1000000 + grace), w)).
Proof.
  split.
  - eexists. split; [vm_compute; reflexivity|]. split; reflexivity.
  - intros [w H]. vm_compute in H. discriminate H.
Qed.

Lemma every_interrupt_arms_timer_witness :
  ∃ w_run : world,
    exit_timers w_run = [2000000; 3000000]
    ∧ event_base_dispatch (T:=spec_transport)
        ([] ++ (0, Signal SIGINT) :: [(1000000, Signal SIGINT); (2500000, Accept 5 true)])
        ready_world
      = Some (Loopexit 2000000, set_now 2000000 w_run).
Proof.
  destruct (@every_interrupt_arms_timer spec_transport spec_transport_laws []
              [(1000000, Signal SIGINT); (2500000, Accept 5 true)] 0)
    as (_ & w_run & _ & Htimers & Hloop).
  - constructor.
  - constructor.
  - repeat constructor; simpl; lia.
  - repeat constructor.
  - exists w_run. split; [exact Htimers|exact Hloop].
Defined.

(** ** Further properties of the callbacks and of [main] *)

(** *** [conn_writecb] *)

(** [conn_writecb] only reports: whatever the number of calls, the state
    is as before except for the output stream, which gains one "Answered"
    line per call when the output buffer is empty and nothing otherwise.
    The buffers, the connections and the wire are never touched. *)
Theorem writecb_reports_only (w : world) (bev : Z) (b : bufferevent) (n : nat) :
  conns w !! bev = Some b →
  exec (repeat_m n (conn_writecb bev)) w
  = Some (set_stdout
            (stdout w ++ (if evbuffer_get_length (bev_output b) =? 0
                          then replicate n ("Answered" +:+ nl) else []))
            w).
Proof.
  revert w. induction n as [|n IH]; intros w Hb; simpl.
  - unfold exec. simpl. destruct (_ =? _); rewrite app_nil_r; by destruct w.
  - unfold exec. erewrite bind_exec by (by apply (conn_writecb_exec (T:=spec_transport))).
    match goal with |- context [repeat_m n _ ?w1] => specialize (IH w1 Hb) end.
    unfold exec in IH. rewrite IH. simpl.
    destruct (_ =? _); simpl; by rewrite <- app_assoc.
Qed.

Lemma writecb_reports_only_witness :
  exec (repeat_m 2 (conn_writecb 7)) fresh_world
  = Some (set_stdout (stdout fresh_world ++ ["Answered" +:+ nl; "Answered" +:+ nl])
            fresh_world)
  ∧ exec (repeat_m 2 (conn_writecb 7)) sample_world
    = Some (set_stdout (stdout sample_world ++ []) sample_world).
Proof.
  split.
  - exact (writecb_reports_only fresh_world 7 fresh_bev 2 eq_refl).
  - exact (writecb_reports_only sample_world 7 sample_bev 2 eq_refl).
Defined.

Section WriteProperties.
Context {T : Transport}.

(** A write notification on a connection set up by [listener_cb] moves
    the first [n] bytes of the output buffer to the wire, in order, and
    "Answered" is printed exactly when that emptied the buffer, also when
    it was empty to begin with. *)
Theorem write_notification (w : world) (fd : Z) (b : bufferevent) (n : nat) :
  conns w !! fd = Some b →
  accepted_bev b →
  ∃ w' : world,
    deliver (Writable fd n) w = Some (tt, w')
    ∧ conns w' !! fd = Some (flushed n b)
    ∧ wire w' !! fd = Some (default [] (wire w !! fd) ++ take n (bev_output b))
    ∧ stdout w' = stdout w ++ (if (length (bev_output b) <=? n)%nat
                                then ["Answered" +:+ nl] else [])
    ∧ (∀ fd' : Z, fd' ≠ fd →
         conns w' !! fd' = conns w !! fd' ∧ wire w' !! fd' = wire w !! fd').
Proof.
  intros Hb (Hopt & Hrd & Hwr & Hev & Hen).
  unfold deliver. erewrite bind_exec by reflexivity. simpl. rewrite Hb, Hen. simpl.
  erewrite bind_exec by reflexivity. erewrite bind_exec by reflexivity.
  rewrite Hwr. simpl.
  erewrite conn_writecb_exec; [|simpl; apply lookup_insert_eq].
  eexists. split; [reflexivity|]. simpl. rewrite !lookup_insert_eq.
  split; [unfold flushed; by rewrite Hwr, Hen|]. split; [done|]. split.
  - f_equal. unfold evbuffer_get_length. rewrite length_drop.
    destruct (Nat.leb_spec (length (bev_output b)) n);
      destruct (Z.eqb_spec (Z.of_nat (length (bev_output b) - n)) 0); try done; lia.
  - intros fd' Hfd'. by rewrite !lookup_insert_ne.
Qed.

End WriteProperties.

Lemma write_notification_witness :
  ∃ w' : world,
    deliver (T:=spec_transport) (Writable 7 1) idle_world = Some (tt, w')
    ∧ wire w' !! 7 = Some [x3e]%byte
    ∧ stdout w' = stdout idle_world ++ ["Answered" +:+ nl].
Proof.
  destruct (write_notification (T:=spec_transport) idle_world 7 idle_bev 1)
    as (w' & H1 & _ & H2 & H3 & _).
  - reflexivity.
  - repeat split.
  - exists w'. split; [exact H1|]. split; [exact H2|exact H3].
Defined.

(** *** [conn_eventcb] *)

Lemma c_true_false (z : Z) : c_true z = false ↔ z = 0.
Proof. unfold c_true. destruct (Z.eqb_spec z 0); simpl; split; done. Qed.

(** [conn_eventcb] prints one line for each of the six conditions whose
    bit is set in the mask, in the order in which it tests them, and
    nothing on the error stream.  It prints nothing at all exactly when
    none of the six bits is set; the connection is freed all the same, so
    a connection can go without a word. *)
Theorem eventcb_diagnostics (w : world) (bev : Z) (b : bufferevent)
    (events : Z) (err : string) :
  conns w !! bev = Some b →
  ∃ (w' : world) (lines : list string),
    conn_eventcb bev events err w = Some (tt, w')
    ∧ stdout w' = stdout w ++ lines
    ∧ stderr w' = stderr w
    ∧ length lines
      = length (List.filter (λ f, c_true (Z.land events f)) reported_flags)
    ∧ (lines = [] ↔ Z.land events reported_mask = 0)
    ∧ state_of w' bev = CLOSED.
Proof.
  intros Hb. exists (released bev b (set_stdout (stdout w ++ event_lines events err) w)),
    (event_lines events err).
  split; [by apply conn_eventcb_exec|].
  split; [unfold released; by destruct (c_true _)|].
  split; [unfold released; by destruct (c_true _)|].
  split; [|split].
  - unfold event_lines, reported_flags. simpl.
    destruct (c_true (Z.land events BEV_EVENT_READING));
      destruct (c_true (Z.land events BEV_EVENT_WRITING));
      destruct (c_true (Z.land events BEV_EVENT_EOF));
      destruct (c_true (Z.land events BEV_EVENT_ERROR));
      destruct (c_true (Z.land events BEV_EVENT_TIMEOUT));
      destruct (c_true (Z.land events BEV_EVENT_CONNECTED)); reflexivity.
  - unfold reported_mask, reported_flags, event_lines.
    cbn [fold_right]. rewrite !Z.land_lor_distr_r, Z.land_0_r, !Z.lor_eq_0_iff.
    rewrite <- !c_true_false.
    destruct (c_true (Z.land events BEV_EVENT_READING));
      destruct (c_true (Z.land events BEV_EVENT_WRITING));
      destruct (c_true (Z.land events BEV_EVENT_EOF));
      destruct (c_true (Z.land events BEV_EVENT_ERROR));
      destruct (c_true (Z.land events BEV_EVENT_TIMEOUT));
      destruct (c_true (Z.land events BEV_EVENT_CONNECTED));
      simpl; ((by repeat split) || (split; [intros [=]|intuition discriminate])).
  - unfold released, state_of. destruct (c_true _); simpl; by rewrite lookup_delete_eq.
Qed.

Lemma eventcb_diagnostics_witness :
  ∃ (w' : world) (lines : list string),
    conn_eventcb 7 (Z.lor BEV_EVENT_EOF BEV_EVENT_READING) "" sample_world
    = Some (tt, w')
    ∧ stdout w' = stdout sample_world ++ lines
    ∧ length lines = 2%nat.
Proof.
  destruct (eventcb_diagnostics sample_world 7 sample_bev
              (Z.lor BEV_EVENT_EOF BEV_EVENT_READING) "" eq_refl)
    as (w' & lines & H1 & H2 & _ & H3 & _).
  exists w', lines. split; [exact H1|]. split; [exact H2|exact H3].
Defined.

(** *** [main] *)

Section MainProperties.
Context {T : Transport} {L : TransportLaws T}.

(** Which step of the startup fails decides the one diagnostic [main]
    writes, in the order of the source: event base, then listener, then
    signal event.  [main] returns 1 on the spot and releases nothing: after
    a failed listener the event base stays allocated, and after a failed
    signal event the listener stays registered as well, with the signal
    event created but not armed when it is [event_add] that failed.  When
    [evsignal_new] fails, [event_add] is not called: its result does not
    matter. *)
Theorem startup_diagnostics (env : startup_env) (sched : schedule) :
  (base_new_ok env = false →
   ∃ w : world,
     main env sched init_world = Some (1, w)
     ∧ stderr w = ["Could not initialize libevent!" +:+ nl]
     ∧ base_alive w = false ∧ listener w = None ∧ signal_event w = None)
  ∧ (base_new_ok env = true → listener_bind_ok env = false →
     ∃ w : world,
       main env sched init_world = Some (1, w)
       ∧ stderr w = ["Could not create a listener!" +:+ nl]
       ∧ base_alive w = true ∧ listener w = None ∧ signal_event w = None)
  ∧ (base_new_ok env = true → listener_bind_ok env = true →
     evsignal_new_ok env = false ∨ event_add_result env < 0 →
     ∃ w : world,
       main env sched init_world = Some (1, w)
       ∧ stderr w = ["Could not create/add a signal event!" +:+ nl]
       ∧ base_alive w = true
       ∧ listener w = listener ready_world
       ∧ signal_event w
         = (if evsignal_new_ok env then Some (Event SIGINT Signal_cb false)
            else None))
  ∧ (evsignal_new_ok env = false →
     ∀ r : Z,
       main env sched init_world
       = main (Startup_env (base_new_ok env) (listener_bind_ok env) false r)
              sched init_world).
Proof.
  destruct env as [b l s r]. simpl.
  unfold main, event_base_new, evconnlistener_new_bind, evsignal_new, event_add.
  munfold. simpl. split; [|split; [|split]].
  - intros ->. simpl. eexists. split; [reflexivity|]. by repeat split.
  - intros -> ->. simpl. eexists. split; [reflexivity|]. by repeat split.
  - intros -> -> Hsig. simpl. destruct s; simpl.
    + destruct Hsig as [Hsig|Hsig]; [done|].
      apply Z.ltb_lt in Hsig. rewrite Hsig. simpl.
      eexists. split; [reflexivity|]. by repeat split.
    + eexists. split; [reflexivity|]. by repeat split.
  - intros -> r'. by destruct b, l.
Qed.

(** With startup done, nothing that happens on the sockets ends the
    server: over a schedule without any signal and without a failed
    bufferevent construction, every notification is served and neither the
    loop nor [main] returns.  New connections, data, write and status
    notifications, also those that close a connection, leave the loop
    running with no exit timer armed and no break requested. *)
Theorem server_runs_until_stopped (env : startup_env) (sched : schedule) :
  startup_ok env = true →
  Forall (λ e, is_signal e.2 = false) sched →
  Forall (λ e, is_failed_accept e.2 = false) sched →
  (∃ w' : world,
     serve_all sched ready_world = Some (tt, w')
     ∧ exit_timers w' = [] ∧ event_break w' = false)
  ∧ event_base_dispatch sched ready_world = None
  ∧ main env sched init_world = None.
Proof.
  intros Hok Hnosig Hacc.
  assert (Hquiet : Forall (λ e, is_interrupt e.2 = false) sched).
  { eapply Forall_impl; [exact Hnosig|]. intros [t ev]. simpl. by destruct ev. }
  assert (Harmed : armed ready_world) by (split; [done|by eexists]).
  destruct (dispatch_runs sched [] ready_world Harmed eq_refl Hacc)
    as (w' & Hrun & Hbrk & Hloop).
  { simpl. rewrite (armed_by_quiet sched Hquiet). constructor. }
  destruct (serve_all_effect sched ready_world Harmed)
    as (w'' & lines & Hrun' & _ & Htimers & _).
  rewrite Hrun in Hrun'. injection Hrun' as <-.
  rewrite (armed_by_quiet sched Hquiet) in Htimers. simpl in Htimers.
  rewrite app_nil_r in Hloop.
  assert (Hnone : event_base_dispatch sched ready_world = None).
  { rewrite Hloop. simpl. erewrite bind_exec by reflexivity. by rewrite Htimers. }
  split; [by exists w'|]. split; [done|].
  by rewrite (main_startup_ok env sched Hok), Hnone.
Qed.

(** Whatever the loop goes through before it returns, it leaves the
    registrations in place and prints no completion message. *)
Lemma dispatch_effect (sched : schedule) :
  ∀ (w w' : world) (r : loop_exit),
    armed w →
    event_base_dispatch sched w = Some (r, w') →
    ∃ lines : list string,
      stdout w' = stdout w ++ lines ∧ ("done" +:+ nl) ∉ lines.
Proof.
  induction sched as [|[t ev] sched IH]; intros w w' r Harmed Hloop; simpl in Hloop.
  - erewrite bind_exec in Hloop by reflexivity.
    destruct (earliest (exit_timers w)); [|done].
    injection Hloop as <- <-. exists []. rewrite app_nil_r. split; [done|not_done].
  - erewrite bind_exec in Hloop by reflexivity.
    destruct (due (exit_timers w) t).
    { injection Hloop as <- <-. exists []. rewrite app_nil_r. split; [done|not_done]. }
    erewrite bind_exec in Hloop by reflexivity.
    destruct (deliver_effect ev (set_now t w) (armed_set_now t w Harmed))
      as (w1 & lines1 & Hrun1 & Harmed1 & _ & _ & _ & Hout1 & Hdone1).
    erewrite bind_exec in Hloop by exact Hrun1.
    erewrite bind_exec in Hloop by reflexivity.
    destruct (event_break w1).
    + injection Hloop as <- <-. by exists lines1.
    + destruct (IH w1 w' r Harmed1 Hloop) as (lines2 & Hout2 & Hdone2).
      exists (lines1 ++ lines2). split; [|by apply not_elem_of_app].
      rewrite Hout2, Hout1. simpl. by rewrite <- app_assoc.
Qed.

(** Exit status and output of [main], whenever and however it returns.
    The status is 1 after a failed startup, with nothing on the output
    stream, and 0 otherwise, whether the loop ended by its exit timer or by
    a break.  In the second case the output stream starts with the
    listening message and ends with the completion message, printed exactly
    once, and the listener, the signal event and the event base have been
    released. *)
Theorem main_output_shape (env : startup_env) (sched : schedule) (z : Z)
    (w : world) :
  main env sched init_world = Some (z, w) →
  (z = 1 ∧ startup_ok env = false ∧ stdout w = [])
  ∨ (z = 0 ∧ startup_ok env = true
     ∧ head (stdout w) = Some ("Start listening the port: 9995" +:+ nl)
     ∧ last (stdout w) = Some ("done" +:+ nl)
     ∧ completions w = 1%nat
     ∧ listener w = None ∧ signal_event w = None ∧ base_alive w = false).
Proof.
  intros Hmain. destruct (startup_ok env) eqn:Hok.
  - right. rewrite (main_startup_ok env sched Hok) in Hmain.
    destruct (event_base_dispatch sched ready_world) as [[r w_loop]|] eqn:Hloop;
      [|done].
    injection Hmain as <- <-.
    assert (Harmed : armed ready_world) by (split; [done|by eexists]).
    destruct (dispatch_effect sched ready_world w_loop r Harmed Hloop)
      as (lines & Hout & Hdone).
    split; [done|]. split; [done|]. split; [|split; [|split]].
    + unfold teardown. simpl. by rewrite Hout.
    + unfold teardown. simpl. by rewrite last_snoc.
    + by apply (completions_once _ lines).
    + by repeat split.
  - left. destruct (main_startup_fails env sched Hok)
      as (w1 & d & Hmain1 & _ & _ & _ & Hout & _).
    rewrite Hmain in Hmain1. injection Hmain1 as -> ->. by repeat split.
Qed.

End MainProperties.

Lemma startup_diagnostics_witness :
  ∃ w : world,
    main (T:=spec_transport) (Startup_env true true true (-1)) sample_pre init_world
    = Some (1, w)
    ∧ stderr w = ["Could not create/add a signal event!" +:+ nl]
    ∧ listener w = listener ready_world
    ∧ signal_event w = Some (Event SIGINT Signal_cb false).
Proof.
  destruct (startup_diagnostics (T:=spec_transport)
              (Startup_env true true true (-1)) sample_pre)
    as (_ & _ & Hsig & _).
  destruct (Hsig eq_refl eq_refl) as (w & H1 & H2 & _ & H3 & H4).
  - right. reflexivity.
  - exists w. split; [exact H1|]. split; [exact H2|]. split; [exact H3|exact H4].
Defined.

Lemma server_runs_until_stopped_witness :
  main (T:=spec_transport) good_env
    (sample_pre ++ [(20, ConnEvent 5 BEV_EVENT_EOF ""); (30, Accept 6 true)]) init_world
  = None.
Proof.
  destruct (@server_runs_until_stopped spec_transport spec_transport_laws good_env
              (sample_pre ++ [(20, ConnEvent 5 BEV_EVENT_EOF ""); (30, Accept 6 true)]))
    as (_ & _ & Hmain).
  - reflexivity.
  - repeat constructor.
  - repeat constructor.
  - exact Hmain.
Defined.

Lemma main_output_shape_witness :
  ∃ w : world,
    main (T:=spec_transport) good_env
      (sample_pre ++ (20, Accept 6 false) :: sample_post) init_world
    = Some (0, w)
    ∧ last (stdout w) = Some ("done" +:+ nl)
    ∧ completions w = 1%nat.
Proof.
  eexists. split; [vm_compute; reflexivity|].
  match goal with
  | |- last (stdout ?w) = _ ∧ _ =>
      destruct (@main_output_shape spec_transport spec_transport_laws good_env
                  (sample_pre ++ (20, Accept 6 false) :: sample_post) 0 w)
        as [(Hz & _)|(_ & _ & _ & Hlast & Hdone & _)]
  end.
  - vm_compute. reflexivity.
  - discriminate Hz.
  - split; [exact Hlast|exact Hdone].
Defined.

(** *** Connections side by side and after their end *)

Section ConnectionProperties.
Context {T : Transport} {L : TransportLaws T}.

(** Isolation.  Whatever happens on other sockets (data, writes, status
    events that close them, new connections) and whatever signals arrive,
    the buffers, the registrations and the wire of a connection are
    exactly as before. *)
Theorem other_sockets_untouched (fd : Z) (sched : schedule) :
  ∀ w : world,
    Forall (λ e, subject e.2 ≠ Some fd) sched →
    ∃ w' : world,
      serve_all sched w = Some (tt, w')
      ∧ conns w' !! fd = conns w !! fd
      ∧ wire w' !! fd = wire w !! fd.
Proof.
  induction sched as [|[t ev] sched IH]; intros w Hother; simpl.
  - by exists w.
  - apply Forall_cons in Hother as [Hev Hother]. simpl in Hev.
    destruct (deliver_returns ev (set_now t w)) as (w1 & Hrun1).
    destruct (deliver_frame ev (set_now t w) w1 fd Hev Hrun1) as [Hc1 Hw1].
    destruct (IH w1 Hother) as (w2 & Hrun2 & Hc2 & Hw2).
    exists w2. split.
    { erewrite bind_exec by reflexivity. by erewrite bind_exec by exact Hrun1. }
    by rewrite Hc2, Hw2, Hc1, Hw1.
Qed.

(** On a socket without a live bufferevent only a new connection changes
    anything. *)
Lemma deliver_closed (ev : io_event) (w w' : world) (fd : Z) :
  conns w !! fd = None →
  accepts fd ev = false →
  deliver ev w = Some (tt, w') →
  conns w' !! fd = None ∧ wire w' !! fd = wire w !! fd.
Proof.
  intros Hnone Hacc Hrun.
  destruct (decide (subject ev = Some fd)) as [Hsub|Hsub].
  - destruct ev as [fd' ok|fd' data|fd' n|fd' events err|signum];
      simpl in Hsub; try done; injection Hsub as ->.
    + simpl in Hacc. by rewrite bool_decide_eq_true_2 in Hacc.
    + unfold deliver in Hrun. erewrite bind_exec in Hrun by reflexivity.
      rewrite Hnone in Hrun. by injection Hrun as <-.
    + unfold deliver in Hrun. erewrite bind_exec in Hrun by reflexivity.
      rewrite Hnone in Hrun. by injection Hrun as <-.
    + unfold deliver in Hrun. erewrite bind_exec in Hrun by reflexivity.
      rewrite Hnone in Hrun. by injection Hrun as <-.
  - destruct (deliver_frame ev w w' fd Hsub Hrun) as [Hc Hw].
    by rewrite Hc, Hw.
Qed.

(** What the output buffer still holds when [conn_eventcb] runs is lost.
    The callback frees the connection without flushing, and from then on,
    until a new connection is accepted on the same socket number, no
    notification puts another byte on that wire: the peer never gets the
    bytes that were waiting. *)
Theorem unflushed_output_is_lost (w : world) (fd : Z) (b : bufferevent)
    (events : Z) (err : string) (sched : schedule) :
  conns w !! fd = Some b →
  Forall (λ e, accepts fd e.2 = false) sched →
  ∃ w1 w2 : world,
    conn_eventcb fd events err w = Some (tt, w1)
    ∧ wire w1 !! fd = wire w !! fd
    ∧ serve_all sched w1 = Some (tt, w2)
    ∧ state_of w2 fd = CLOSED
    ∧ wire w2 !! fd = wire w !! fd.
Proof.
  intros Hb Hsched.
  set (w1 := released fd b (set_stdout (stdout w ++ event_lines events err) w)).
  assert (Hcb : conn_eventcb fd events err w = Some (tt, w1))
    by (by apply conn_eventcb_exec).
  assert (Hc1 : conns w1 !! fd = None).
  { unfold w1, released. destruct (c_true _); simpl; apply lookup_delete_eq. }
  assert (Hw1 : wire w1 !! fd = wire w !! fd).
  { unfold w1, released. by destruct (c_true _). }
  assert (∀ w0 : world, conns w0 !! fd = None →
          ∃ w2, serve_all sched w0 = Some (tt, w2)
                ∧ conns w2 !! fd = None ∧ wire w2 !! fd = wire w0 !! fd) as Hrest.
  { clear Hcb Hc1 Hw1. induction sched as [|[t ev] sched IH]; intros w0 Hc0; simpl.
    - by exists w0.
    - apply Forall_cons in Hsched as [Hev Hsched]. simpl in Hev.
      destruct (deliver_returns ev (set_now t w0)) as (w' & Hrun').
      destruct (deliver_closed ev (set_now t w0) w' fd Hc0 Hev Hrun') as [Hc' Hw'].
      destruct (IH Hsched w' Hc') as (w2 & Hrun2 & Hc2 & Hw2).
      exists w2. split.
      { erewrite bind_exec by reflexivity. by erewrite bind_exec by exact Hrun'. }
      split; [done|]. by rewrite Hw2, Hw'. }
  destruct (Hrest w1 Hc1) as (w2 & Hrun & Hc2 & Hw2).
  exists w1, w2. split; [done|]. split; [done|]. split; [done|].
  split; [unfold state_of; by rewrite Hc2|]. by rewrite Hw2.
Qed.

(** In-order echo as an invariant.  On a connection fresh from
    [listener_cb], at every moment short of its end, the input buffer is
    empty and what is on the wire followed by what is in the output buffer
    is exactly what has arrived, in order of arrival.  So the bytes sent to
    the peer are always a prefix of the bytes it sent: never one more,
    never one out of order. *)
Theorem echo_never_ahead (w : world) (fd : Z) (sched : schedule) :
  conns w !! fd = Some fresh_bev →
  wire w !! fd = None →
  Forall (λ e, resets fd e.2 = false) sched →
  ∃ (w' : world) (b' : bufferevent),
    serve_all sched w = Some (tt, w')
    ∧ conns w' !! fd = Some b'
    ∧ bev_input b' = []
    ∧ default [] (wire w' !! fd) ++ bev_output b' = received fd sched
    ∧ default [] (wire w' !! fd) `prefix_of` received fd sched.
Proof.
  intros Hb Hwire Hres.
  assert (Hacc : accepted_bev fresh_bev) by by repeat split.
  destruct (serve_all_echo fd sched w fresh_bev Hb Hacc eq_refl Hres)
    as (w' & b' & Hrun & Hb' & _ & Hin' & Hecho).
  unfold echoed in Hecho. rewrite Hb, Hwire, Hb' in Hecho. simpl in Hecho.
  exists w', b'. split; [done|]. split; [done|]. split; [done|].
  split; [done|]. rewrite <- Hecho. by apply prefix_app_r.
Qed.

(** One notification keeps every live connection settled. *)
Lemma deliver_settled (ev : io_event) (w w' : world) :
  settled w → deliver ev w = Some (tt, w') → settled w'.
Proof.
  intros Hset Hrun fd b' Hb'.
  destruct (decide (subject ev = Some fd)) as [Hsub|Hsub].
  2:{ destruct (deliver_frame ev w w' fd Hsub Hrun) as [Hc _].
      rewrite Hc in Hb'. by apply (Hset fd). }
  destruct (conns w !! fd) as [b|] eqn:Hb.
  - destruct (Hset fd b Hb) as [Hacc Hin].
    destruct ev as [fd' ok|fd' data|fd' n|fd' events err|signum];
      simpl in Hsub; try done; injection Hsub as ->.
    + unfold deliver in Hrun. erewrite bind_exec in Hrun by reflexivity.
      destruct (listener w) as [[[] ? ? ?]|]; simpl in Hrun.
      * destruct ok.
        -- rewrite listener_cb_exec_ok in Hrun. injection Hrun as <-.
           simpl in Hb'. rewrite lookup_insert_eq in Hb'. injection Hb' as <-.
           by repeat split.
        -- rewrite listener_cb_exec_fail in Hrun. injection Hrun as <-.
           simpl in Hb'. rewrite Hb in Hb'. injection Hb' as <-. done.
      * injection Hrun as <-. rewrite Hb in Hb'. injection Hb' as <-. done.
    + destruct (deliver_echo 0 (Readable fd data) w fd b Hb Hacc Hin eq_refl)
        as (w1 & b1 & Hrun1 & Hb1 & Hacc1 & Hin1 & _).
      rewrite Hrun in Hrun1. injection Hrun1 as <-.
      rewrite Hb' in Hb1. injection Hb1 as <-. done.
    + destruct (deliver_echo 0 (Writable fd n) w fd b Hb Hacc Hin eq_refl)
        as (w1 & b1 & Hrun1 & Hb1 & Hacc1 & Hin1 & _).
      rewrite Hrun in Hrun1. injection Hrun1 as <-.
      rewrite Hb' in Hb1. injection Hb1 as <-. done.
    + destruct Hacc as (_ & _ & _ & Hev & _).
      unfold deliver in Hrun. erewrite bind_exec in Hrun by reflexivity.
      rewrite Hb, Hev in Hrun. simpl in Hrun.
      erewrite conn_eventcb_exec in Hrun by done. injection Hrun as <-.
      unfold released in Hb'. destruct (c_true _); simpl in Hb';
        by rewrite lookup_delete_eq in Hb'.
  - destruct (decide (accepts fd ev = true)) as [Hacc|Hacc].
    + destruct ev as [fd' ok| | | |]; try discriminate Hacc.
      simpl in Hsub. injection Hsub as ->.
      unfold deliver in Hrun. erewrite bind_exec in Hrun by reflexivity.
      destruct (listener w) as [[[] ? ? ?]|]; simpl in Hrun.
      * destruct ok.
        -- rewrite listener_cb_exec_ok in Hrun. injection Hrun as <-.
           simpl in Hb'. rewrite lookup_insert_eq in Hb'. injection Hb' as <-.
           by repeat split.
        -- rewrite listener_cb_exec_fail in Hrun. injection Hrun as <-.
           simpl in Hb'. by rewrite Hb in Hb'.
      * injection Hrun as <-. by rewrite Hb in Hb'.
    + apply not_true_is_false in Hacc.
      destruct (deliver_closed ev w w' fd Hb Hacc Hrun) as [Hc _].
      by rewrite Hc in Hb'.
Qed.

(** Between notifications every live connection is as [listener_cb] set
    it up (all three callbacks, reading and writing enabled, socket closed
    on free) and its input buffer is empty: [conn_readcb] never leaves a
    byte behind, and no callback changes a registration.  This holds in
    every state reached from one where it holds, and it holds when [main]
    enters the loop, where there is no connection yet. *)
Theorem connections_stay_settled (sched : schedule) :
  ∀ w w' : world,
    settled w →
    serve_all sched w = Some (tt, w') →
    settled w'.
Proof.
  induction sched as [|[t ev] sched IH]; intros w w' Hset Hrun; simpl in Hrun.
  - by injection Hrun as <-.
  - erewrite bind_exec in Hrun by reflexivity.
    destruct (deliver_returns ev (set_now t w)) as (w1 & Hrun1).
    erewrite bind_exec in Hrun by exact Hrun1.
    apply (IH w1 w'); [|done].
    by apply (deliver_settled ev (set_now t w) w1).
Qed.

End ConnectionProperties.

Lemma settled_ready_world : settled ready_world.
Proof. intros fd b Hb. simpl in Hb. by rewrite lookup_empty in Hb. Qed.

Lemma other_sockets_untouched_witness :
  ∃ w' : world,
    serve_all (T:=spec_transport)
      [(1, Readable 8 [x21]%byte); (2, Accept 9 true);
       (3, ConnEvent 8 BEV_EVENT_EOF ""); (4, Signal SIGINT)] sample_world
    = Some (tt, w')
    ∧ conns w' !! 7 = Some sample_bev.
Proof.
  destruct (@other_sockets_untouched spec_transport spec_transport_laws 7
              [(1, Readable 8 [x21]%byte); (2, Accept 9 true);
               (3, ConnEvent 8 BEV_EVENT_EOF ""); (4, Signal SIGINT)] sample_world)
    as (w' & H1 & H2 & _).
  - repeat constructor; discriminate.
  - exists w'. split; [exact H1|exact H2].
Defined.

Lemma unflushed_output_is_lost_witness :
  ∃ w1 w2 : world,
    conn_eventcb 7 BEV_EVENT_EOF "" sample_world = Some (tt, w1)
    ∧ serve_all (T:=spec_transport)
        [(1, Writable 7 9%nat); (2, Readable 7 [x21]%byte)] w1
      = Some (tt, w2)
    ∧ bev_output sample_bev = [x3e]%byte
    ∧ wire w2 !! 7 = None.
Proof.
  destruct (@unflushed_output_is_lost spec_transport spec_transport_laws
              sample_world 7 sample_bev BEV_EVENT_EOF ""
              [(1, Writable 7 9%nat); (2, Readable 7 [x21]%byte)])
    as (w1 & w2 & H1 & _ & H2 & _ & H3).
  - reflexivity.
  - repeat constructor.
  - exists w1, w2. split; [exact H1|]. split; [exact H2|].
    split; [reflexivity|exact H3].
Defined.

Lemma echo_never_ahead_witness :
  ∃ (w' : world) (b' : bufferevent),
    serve_all (T:=spec_transport) sample_stream fresh_world = Some (tt, w')
    ∧ conns w' !! 7 = Some b'
    ∧ default [] (wire w' !! 7) ++ bev_output b' = [x68; x69]%byte.
Proof.
  destruct (@echo_never_ahead spec_transport spec_transport_laws fresh_world 7
              sample_stream) as (w' & b' & H1 & H2 & _ & H3 & _).
  - reflexivity.
  - reflexivity.
  - repeat constructor.
  - exists w', b'. split; [exact H1|]. split; [exact H2|exact H3].
Defined.

Lemma connections_stay_settled_witness :
  ∃ w' : world,
    serve_all (T:=spec_transport)
      (sample_pre ++ [(20, Writable 5 1%nat); (30, Accept 6 true)]) ready_world
    = Some (tt, w')
    ∧ settled w'.
Proof.
  eexists. split; [vm_compute; reflexivity|].
  apply (@connections_stay_settled spec_transport spec_transport_laws
           (sample_pre ++ [(20, Writable 5 1%nat); (30, Accept 6 true)])
           ready_world).
  - exact settled_ready_world.
  - vm_compute. reflexivity.
Defined.

(** *** The drain loop without progress *)

(** The loop of [conn_readcb] has one exit: the [size_t] value of the
    library's result has reached the length found at the start of the
    pass.  Take bytes in the input buffer and a library call that moves
    nothing.  If it reports 0, no number of passes brings the loop to an
    end and [conn_readcb] does not return.  If it reports -1, the value
    stored in [writes] is the largest [size_t], the test succeeds, and the
    loop ends after one pass: [conn_readcb] returns having printed its
    line, with both buffers as they were and nothing echoed. *)
Theorem drain_without_progress (evbuf_in evbuf_out : evbuffer) :
  evbuf_in ≠ [] →
  evbuffer_get_length evbuf_in < 2 ^ SIZE_BITS →
  (∀ (fuel : nat) (log : list (Z * Z)),
     conn_readcb_loop (T:=stuck_transport) fuel evbuf_in evbuf_out log = None)
  ∧ (∀ (w : world) (bev : Z) (b : bufferevent),
       conns w !! bev = Some b → bev_input b = evbuf_in →
       conn_readcb (T:=stuck_transport) bev w = None)
  ∧ (∀ (fuel : nat) (log : list (Z * Z)),
       conn_readcb_loop (T:=refusing_transport) (S fuel) evbuf_in evbuf_out log
       = Some (evbuf_in, evbuf_out,
               log ++ [(evbuffer_get_length evbuf_in, 2 ^ SIZE_BITS - 1)]))
  ∧ (∀ (w : world) (bev : Z) (b : bufferevent),
       conns w !! bev = Some b → bev_input b = evbuf_in →
       conn_readcb (T:=refusing_transport) bev w
       = Some (tt, set_stdout (stdout w ++ ["Received" +:+ nl]) w)).
Proof.
  intros Hne Hsize.
  assert (Hpos : 0 < evbuffer_get_length evbuf_in).
  { unfold evbuffer_get_length. destruct evbuf_in; [done|simpl; lia]. }
  assert (Hstuck : ∀ (fuel : nat) (out : evbuffer) (log : list (Z * Z)),
            conn_readcb_loop (T:=stuck_transport) fuel evbuf_in out log = None).
  { induction fuel as [|fuel IH]; intros out log; simpl; [done|].
    change (int_to_size_t 0) with 0.
    destruct (Z.leb_spec (evbuffer_get_length evbuf_in) 0); [lia|apply IH]. }
  assert (Hrefused : ∀ (fuel : nat) (out : evbuffer) (log : list (Z * Z)),
            conn_readcb_loop (T:=refusing_transport) (S fuel) evbuf_in out log
            = Some (evbuf_in, out,
                    log ++ [(evbuffer_get_length evbuf_in, 2 ^ SIZE_BITS - 1)])).
  { intros fuel out log. simpl.
    change (int_to_size_t (-1)) with (2 ^ SIZE_BITS - 1).
    destruct (Z.leb_spec (evbuffer_get_length evbuf_in) (2 ^ SIZE_BITS - 1));
      [done|lia]. }
  split; [intros fuel log; apply Hstuck|]. split; [|split].
  - intros w bev b Hb Hin. unfold conn_readcb. munfold. rewrite Hb, Hin.
    by rewrite Hstuck.
  - intros fuel log. apply Hrefused.
  - intros w bev b Hb Hin. unfold conn_readcb. munfold. rewrite Hb, Hin.
    rewrite Hrefused. simpl. rewrite <- Hin.
    replace (Bufferevent _ _ _ _ _ _ _) with b by (by destruct b).
    by rewrite (insert_id _ _ _ Hb), set_conns_id.
Qed.

Lemma drain_without_progress_witness :
  conn_readcb_loop (T:=stuck_transport) 1000 [x68; x69]%byte [] [] = None
  ∧ conn_readcb (T:=stuck_transport) 7 sample_world = None
  ∧ conn_readcb_loop (T:=refusing_transport) 1 [x68; x69]%byte [] []
    = Some ([x68; x69]%byte, [], [(2, 2 ^ SIZE_BITS - 1)])
  ∧ conn_readcb (T:=refusing_transport) 7 sample_world
    = Some (tt, set_stdout (stdout sample_world ++ ["Received" +:+ nl]) sample_world).
Proof.
  destruct (drain_without_progress [x68; x69]%byte [])
    as (Hstuck & Hstuck_cb & Hrefused & Hrefused_cb); [discriminate|reflexivity|].
  split; [exact (Hstuck 1000%nat [])|].
  split; [exact (Hstuck_cb sample_world 7 sample_bev eq_refl eq_refl)|].
  split; [exact (Hrefused 0%nat [])|].
  exact (Hrefused_cb sample_world 7 sample_bev eq_refl eq_refl).
Defined.
